(** * Aurora QA: the rule-based question-answering engine

    A shallow embedding of [app/qa_engine.py] (with the message entity of
    [app/models.py]) and the proofs of its specified properties.

    Modelling conventions.
    - A Python [str] is a [string] of 7-bit characters.  The character
      classes below are the ASCII ones; code units 128-255 are outside
      the modelled domain and are treated as caseless symbols.
    - A Python [int] is a [Z]; a counter that starts at 0 and is only
      incremented is a [nat].  A [float] similarity ratio is an exact
      rational [Q]: the engine only compares ratios with each other and
      with 0.80, and for names of realistic length these comparisons come
      out the same on the doubles.  The ratio function itself (difflib's)
      and the interpreter's cap on integer conversions are parameters of
      the development (class [Runtime]).
    - Operations that can raise ([l[i]], [d[k]], [m.group(i)], [int(s)])
      live in the error monad [result]; [try/except] is a match on it.
    - A dict is a [gmap]; a set is the list of its elements in iteration
      order, an order the engine does not control (class [Runtime]).
    - A regular expression is a term of type [regex], run by a backtracking
      matcher that lists the possible matches in the priority order of
      Python's [re] module. *)

From Stdlib Require Import String Ascii List Bool Arith Lia NArith ZArith.
From Stdlib Require Import QArith DecimalString Sorted.
From stdpp Require Import gmap strings.
Import ListNotations.

Local Open Scope string_scope.
Local Open Scope nat_scope.
Local Open Scope list_scope.

(* Let [simpl] compute the concatenation of texts. *)
#[local] Arguments String.append !s1 s2 : simpl nomatch.

(** ** Exceptions *)

Inductive exn : Type := IndexError | KeyError | ValueError.

Inductive result (A : Type) : Type :=
| Ok (a : A)
| Raise (e : exn).
Arguments Ok {A} a.
Arguments Raise {A} e.

#[global] Instance result_ret : MRet result := fun A a => Ok a.
#[global] Instance result_bind : MBind result := fun A B f r =>
  match r with
  | Ok a => f a
  | Raise e => Raise e
  end.

(** [l[i]] for [i >= 0]. *)
Definition list_getitem {A} (l : list A) (i : nat) : result A :=
  match nth_error l i with
  | Some x => Ok x
  | None => Raise IndexError
  end.

(** [l[-1]]. *)
Definition list_last {A} (l : list A) : result A :=
  match rev l with
  | x :: _ => Ok x
  | [] => Raise IndexError
  end.

(** [d[k]]. *)
Definition dict_getitem {V} (d : gmap string V) (k : string) : result V :=
  match d !! k with
  | Some v => Ok v
  | None => Raise KeyError
  end.

(** [k in d]. *)
Definition dict_contains {V} (d : gmap string V) (k : string) : bool :=
  match d !! k with
  | Some _ => true
  | None => false
  end.

(** [d.get(k, dflt)]. *)
Definition dict_get {V} (d : gmap string V) (k : string) (dflt : V) : V :=
  default dflt (d !! k).

(** ** Characters and strings *)

Definition in_range (lo hi : nat) (c : ascii) : bool :=
  (lo <=? nat_of_ascii c) && (nat_of_ascii c <=? hi).

Definition is_upper (c : ascii) : bool := in_range 65 90 c.
Definition is_lower (c : ascii) : bool := in_range 97 122 c.
(** [[A-Za-z]] *)
Definition is_alpha (c : ascii) : bool := is_upper c || is_lower c.
(** [\d] *)
Definition is_digit (c : ascii) : bool := in_range 48 57 c.
(** [\w] *)
Definition is_word (c : ascii) : bool :=
  is_alpha c || is_digit c || Ascii.eqb c "_".
(** [\s], also the separators of [str.split()] and [str.strip()]:
    tab, newline, vertical tab, form feed, carriage return, the four
    separators 28-31 and the space. *)
Definition is_space (c : ascii) : bool :=
  in_range 9 13 c || in_range 28 32 c.
(** [[A-Za-z ]] *)
Definition is_alpha_or_blank (c : ascii) : bool :=
  is_alpha c || Ascii.eqb c " ".

Definition lower_char (c : ascii) : ascii :=
  if is_upper c then ascii_of_nat (nat_of_ascii c + 32) else c.

(** [s.lower()] *)
Fixpoint lower (s : string) : string :=
  match s with
  | EmptyString => EmptyString
  | String c s' => String (lower_char c) (lower s')
  end.

(** Truth value of a string: [bool(s)]. *)
Definition truthy (s : string) : bool :=
  match s with
  | EmptyString => false
  | String _ _ => true
  end.

(** Truth value of an [Optional[str]]. *)
Definition truthy_opt (o : option string) : bool :=
  match o with
  | Some s => truthy s
  | None => false
  end.

(** [needle in hay] *)
Fixpoint contains (needle hay : string) : bool :=
  String.prefix needle hay ||
  match hay with
  | EmptyString => false
  | String _ hay' => contains needle hay'
  end.

(** The maximal runs of characters satisfying [p], left to right; [cur] is
    the run being read. *)
Fixpoint runs_loop (p : ascii -> bool) (cur s : string) : list string :=
  match s with
  | EmptyString => if truthy cur then [cur] else []
  | String c s' =>
      if p c then runs_loop p (cur +:+ String c EmptyString) s'
      else if truthy cur then cur :: runs_loop p EmptyString s'
      else runs_loop p EmptyString s'
  end.

Definition runs (p : ascii -> bool) (s : string) : list string :=
  runs_loop p EmptyString s.

(** [s.split()]: the maximal runs of non-blank characters. *)
Definition split (s : string) : list string :=
  runs (fun c => negb (is_space c)) s.

(** [re.findall(r"[a-zA-Z]+", s)]: the maximal runs of letters. *)
Definition findall_alpha (s : string) : list string := runs is_alpha s.

Fixpoint lstrip (s : string) : string :=
  match s with
  | String c s' => if is_space c then lstrip s' else s
  | EmptyString => EmptyString
  end.

Fixpoint rstrip (s : string) : string :=
  match s with
  | String c s' =>
      let r := rstrip s' in
      if is_space c && negb (truthy r) then EmptyString else String c r
  | EmptyString => EmptyString
  end.

(** [s.strip()] *)
Definition strip (s : string) : string := rstrip (lstrip s).

(** [re.sub(r"[^\w]", "", s)] *)
Fixpoint keep_word_chars (s : string) : string :=
  match s with
  | EmptyString => EmptyString
  | String c s' =>
      if is_word c then String c (keep_word_chars s') else keep_word_chars s'
  end.

(** [s[0]] *)
Definition str_first (s : string) : result ascii :=
  match s with
  | String c _ => Ok c
  | EmptyString => Raise IndexError
  end.

Definition digit_value (c : ascii) : Z := Z.of_nat (nat_of_ascii c - 48).

Fixpoint int_loop (acc : Z) (s : string) : Z :=
  match s with
  | EmptyString => acc
  | String c s' => int_loop (10 * acc + digit_value c) s'
  end.

Fixpoint all_chars (p : ascii -> bool) (s : string) : bool :=
  match s with
  | EmptyString => true
  | String c s' => p c && all_chars p s'
  end.

(** [int(s)] on a text of decimal digits, the only texts the engine passes
    to it; any other text is rejected with [ValueError].  So is a text of
    more than [max_digits] digits, leading zeros included, when the
    interpreter caps integer conversions ([sys.get_int_max_str_digits()],
    4300 unless configured; 0 means no cap). *)
Definition py_int (max_digits : nat) (s : string) : result Z :=
  if truthy s && all_chars is_digit s then
    if (max_digits =? 0) || (String.length s <=? max_digits)
    then Ok (int_loop 0 s)
    else Raise ValueError
  else Raise ValueError.

(** [str(n)] *)
Definition py_str (n : Z) : string := NilZero.string_of_int (Z.to_int n).


(** ** Regular expressions

    The fragment of Python's [re] syntax the engine uses.  Repetition is
    only ever applied to a character class. *)

Inductive regex : Type :=
| Eps                                             (* the empty pattern *)
| Chr (p : ascii -> bool)                         (* one character of a class *)
| Seq (r1 r2 : regex)                             (* r1r2 *)
| Alt (r1 r2 : regex)                             (* r1|r2 *)
| Opt (r : regex)                                 (* (?:r)? *)
| Rep (p : ascii -> bool) (lo : nat) (hi : option nat)  (* [p]{lo,hi}, greedy *)
| WordB                                           (* \b *)
| Group (r : regex).                              (* (r) *)

(** A position in the subject: the character before it, if any, and the
    text from it on. *)
Definition position : Type := option ascii * string.

(** The text between position [s] and a later position [s']. *)
Definition consumed (s s' : string) : string :=
  substring 0 (String.length s - String.length s') s.

Definition can_take (hi : option nat) : bool :=
  match hi with
  | Some 0 => false
  | _ => true
  end.

(** Greedy bounded repetition of a class: the end positions, longest
    first. *)
Fixpoint rep (p : ascii -> bool) (lo : nat) (hi : option nat)
    (prev : option ascii) (s : string) : list position :=
  let stop := match lo with 0 => [(prev, s)] | S _ => [] end in
  match s with
  | String c s' =>
      if p c && can_take hi
      then rep p (pred lo) (option_map pred hi) (Some c) s' ++ stop
      else stop
  | EmptyString => stop
  end.

Definition word_before (prev : option ascii) : bool :=
  match prev with
  | Some c => is_word c
  | None => false
  end.

Definition word_after (s : string) : bool :=
  match s with
  | String c _ => is_word c
  | EmptyString => false
  end.

(** All the ways [r] matches at a position, in the order the backtracking
    matcher tries them: each is the end position and the texts of the
    groups closed on the way. *)
Fixpoint rmatch (r : regex) (prev : option ascii) (s : string)
    : list (position * list string) :=
  match r with
  | Eps => [((prev, s), [])]
  | Chr p =>
      match s with
      | String c s' => if p c then [((Some c, s'), [])] else []
      | EmptyString => []
      end
  | Seq r1 r2 =>
      flat_map (fun '((p1, s1), g1) =>
                  map (fun '(e, g2) => (e, g1 ++ g2)) (rmatch r2 p1 s1))
               (rmatch r1 prev s)
  | Alt r1 r2 => rmatch r1 prev s ++ rmatch r2 prev s
  | Opt r1 => rmatch r1 prev s ++ [((prev, s), [])]
  | Rep p lo hi => map (fun e => (e, [])) (rep p lo hi prev s)
  | WordB =>
      if xorb (word_before prev) (word_after s) then [((prev, s), [])] else []
  | Group r1 =>
      map (fun '((p1, s1), g) => ((p1, s1), consumed s s1 :: g))
          (rmatch r1 prev s)
  end.

(** A match object: [m.group(0)] and the numbered groups. *)
Record Match : Type := { group0 : string; groups : list string }.

(** [m.group(i)] for [i >= 1]. *)
Definition group (m : Match) (i : nat) : result string :=
  list_getitem (groups m) (pred i).

(** [re.search]: the first match at the leftmost position that has one. *)
Fixpoint search_from (r : regex) (prev : option ascii) (s : string)
    : option Match :=
  match rmatch r prev s with
  | ((_, s'), g) :: _ => Some {| group0 := consumed s s'; groups := g |}
  | [] =>
      match s with
      | String c s1 => search_from r (Some c) s1
      | EmptyString => None
      end
  end.

Definition re_search (r : regex) (s : string) : option Match :=
  search_from r None s.

(** A sequence of patterns. *)
Definition seq (rs : list regex) : regex := fold_right Seq Eps rs.

(** An alternation of patterns. *)
Fixpoint alt (r : regex) (rs : list regex) : regex :=
  match rs with
  | [] => r
  | r' :: rs' => Alt r (alt r' rs')
  end.

(** A literal text; with [re.IGNORECASE] when [ci] is set. *)
Fixpoint lit_gen (ci : bool) (s : string) : regex :=
  match s with
  | EmptyString => Eps
  | String c s' =>
      Seq (Chr (fun x => if ci then Ascii.eqb (lower_char x) (lower_char c)
                         else Ascii.eqb x c))
          (lit_gen ci s')
  end.

Definition lit : string -> regex := lit_gen false.
Definition lit_i : string -> regex := lit_gen true.

(** [\b([A-Za-z]+)'s\b] *)
Definition POSSESSIVE_PATTERN : regex :=
  seq [WordB; Group (Rep is_alpha 1 None); lit "'s"; WordB].

(** [\b(\d+)\s+car] *)
Definition CAR_COUNT_PATTERN : regex :=
  seq [WordB; Group (Rep is_digit 1 None); Rep is_space 1 None; lit "car"].

Definition MONTH_PATTERN : regex :=
  seq [WordB;
       alt (Seq (lit "Jan") (Opt (lit "uary")))
           [Seq (lit "Feb") (Opt (lit "ruary"));
            Seq (lit "Mar") (Opt (lit "ch"));
            Seq (lit "Apr") (Opt (lit "il"));
            lit "May";
            Seq (lit "Jun") (Opt (lit "e"));
            Seq (lit "Jul") (Opt (lit "y"));
            Seq (lit "Aug") (Opt (lit "ust"));
            Seq (lit "Sep") (Opt (Seq (lit "t") (Opt (lit "ember"))));
            Seq (lit "Oct") (Opt (lit "ober"));
            Seq (lit "Nov") (Opt (lit "ember"));
            Seq (lit "Dec") (Opt (lit "ember"))];
       Rep is_space 1 None;
       Rep is_digit 1 (Some 2);
       Opt (alt (lit "st") [lit "nd"; lit "rd"; lit "th"]);
       Opt (seq [lit ","; Rep is_space 0 None; Rep is_digit 4 (Some 4)])].

(** [\b\d{1,2}/\d{1,2}/\d{2,4}\b] *)
Definition DATE_SLASH_PATTERN : regex :=
  seq [WordB; Rep is_digit 1 (Some 2); lit "/"; Rep is_digit 1 (Some 2);
       lit "/"; Rep is_digit 2 (Some 4); WordB].

(** [trip to ([A-Za-z ]+)\??] under [re.IGNORECASE] *)
Definition TRIP_TO_PATTERN : regex :=
  seq [lit_i "trip to "; Group (Rep is_alpha_or_blank 1 None); Opt (lit "?")].

(** ** The message entity ([app/models.py]) *)

Record MemberMessage : Type := {
  member_id : option string;
  member_name : option string;
  text : string;
  created_at : option Z   (* a point in time; the engine never reads it *)
}.

(** ** The runtime

    What the engine takes from the interpreter and its library.
    - [{m.member_name for m in messages if m.member_name}] is a set: which
      names it holds is determined, the order in which a loop visits them
      is the interpreter's.  The engine builds the set twice, by the same
      comprehension, so the order is a function of the names inserted.
    - [ratio a b] is [SequenceMatcher(None, a, b).ratio()].
    - [int_max_str_digits] is [sys.get_int_max_str_digits()]. *)

Class Runtime : Type := {
  set_iter : list string -> list string;
  set_iter_NoDup : forall l, List.NoDup (set_iter l);
  set_iter_In : forall l x, In x (set_iter l) <-> In x l;
  ratio : string -> string -> Q;
  int_max_str_digits : nat
}.

(** The truthy member names of the messages, in message order. *)
Fixpoint member_names (messages : list MemberMessage) : list string :=
  match messages with
  | [] => []
  | m :: rest =>
      match member_name m with
      | Some name =>
          if truthy name then name :: member_names rest
          else member_names rest
      | None => member_names rest
      end
  end.

(** ** Helper: find member in question *)

Section Engine.

Context {RT : Runtime}.

Definition unique_names (messages : list MemberMessage) : list string :=
  set_iter (member_names messages).

Definition count_step (msg_counts : gmap string nat) (m : MemberMessage)
    : gmap string nat :=
  match member_name m with
  | Some name =>
      if truthy name
      then <[name := dict_get msg_counts name 0 + 1]> msg_counts
      else msg_counts
  | None => msg_counts
  end.

(** The per-member message counts. *)
Definition count_messages (messages : list MemberMessage) : gmap string nat :=
  fold_left count_step messages ∅.

Fixpoint insert_by_len (x : string) (l : list string) : list string :=
  match l with
  | [] => [x]
  | y :: l' =>
      if String.length y <=? String.length x then x :: l
      else y :: insert_by_len x l'
  end.

(** [sorted(names, key=len, reverse=True)]: longest first, names of equal
    length in their original order. *)
Definition sorted_by_len_desc (names : list string) : list string :=
  fold_right insert_by_len [] names.

(** 1) Full-name substring match. *)
Fixpoint full_name_loop (q_lower : string) (names : list string)
    : option string :=
  match names with
  | [] => None
  | name :: rest =>
      if negb (truthy name) then full_name_loop q_lower rest
      else if contains (lower name) q_lower then Some name
      else full_name_loop q_lower rest
  end.

(** 2) First-name map. *)
Fixpoint by_first_loop (by_first : gmap string (list string))
    (names : list string) : result (gmap string (list string)) :=
  match names with
  | [] => Ok by_first
  | name :: rest =>
      let parts := split name in
      match parts with
      | [] => by_first_loop by_first rest
      | _ :: _ =>
          p ← list_getitem parts 0;
          let first := lower p in
          by_first_loop
            (<[first := dict_get by_first first [] ++ [name]]> by_first) rest
      end
  end.

(** 2a) Unique first name. *)
Fixpoint unique_first_loop (by_first : gmap string (list string))
    (tokens : list string) : result (option string) :=
  match tokens with
  | [] => Ok None
  | token :: rest =>
      if dict_contains by_first token then
        names ← dict_getitem by_first token;
        if length names =? 1 then
          names' ← dict_getitem by_first token;
          name ← list_getitem names' 0;
          Ok (Some name)
        else unique_first_loop by_first rest
      else unique_first_loop by_first rest
  end.

(** 2b) Non-unique first name: the loop state is
    [(best_name, best_score)]. *)
Fixpoint candidates_loop (msg_counts : gmap string nat)
    (candidates : list string) (best : option string * nat)
    : option string * nat :=
  match candidates with
  | [] => best
  | name :: rest =>
      let score := dict_get msg_counts name 0 in
      if snd best <? score
      then candidates_loop msg_counts rest (Some name, score)
      else candidates_loop msg_counts rest best
  end.

Fixpoint popularity_loop (by_first : gmap string (list string))
    (msg_counts : gmap string nat) (tokens : list string)
    (best : option string * nat) : result (option string * nat) :=
  match tokens with
  | [] => Ok best
  | token :: rest =>
      if dict_contains by_first token then
        names ← dict_getitem by_first token;
        if 1 <? length names then
          candidates ← dict_getitem by_first token;
          popularity_loop by_first msg_counts rest
            (candidates_loop msg_counts candidates best)
        else popularity_loop by_first msg_counts rest best
      else popularity_loop by_first msg_counts rest best
  end.

Definition find_member_name_in_question (question : string)
    (messages : list MemberMessage) : result (option string) :=
  match messages with
  | [] => Ok None
  | _ :: _ =>
      let q_lower := lower question in
      let names := unique_names messages in
      let msg_counts := count_messages messages in
      let tokens := findall_alpha q_lower in
      match full_name_loop q_lower (sorted_by_len_desc names) with
      | Some name => Ok (Some name)
      | None =>
          by_first ← by_first_loop ∅ names;
          unique ← unique_first_loop by_first tokens;
          match unique with
          | Some name => Ok (Some name)
          | None =>
              best ← popularity_loop by_first msg_counts tokens (None, 0);
              if truthy_opt (fst best) then Ok (fst best) else Ok None
          end
      end
  end.

(** [for i, tok in enumerate(tokens)] from index [i] on. *)
Fixpoint capitalized_loop (i : nat) (tokens : list string)
    : result (option string) :=
  match tokens with
  | [] => Ok None
  | tok :: rest =>
      if i =? 0 then capitalized_loop (S i) rest
      else if truthy tok then
        c ← str_first tok;
        if is_upper c then
          let cleaned := keep_word_chars tok in
          if truthy cleaned then Ok (Some cleaned)
          else capitalized_loop (S i) rest
        else capitalized_loop (S i) rest
      else capitalized_loop (S i) rest
  end.

Definition extract_requested_first_name (question : string)
    : result (option string) :=
  match re_search POSSESSIVE_PATTERN question with
  | Some m => g ← group m 1; Ok (Some g)
  | None => capitalized_loop 0 (split question)
  end.

Definition Qlt_bool (x y : Q) : bool := negb (Qle_bool y x).

(** The loop state is [(best_full_name, best_ratio)]. *)
Fixpoint suggest_loop (requested : string) (names : list string)
    (best : option string * Q) : result (option string * Q) :=
  match names with
  | [] => Ok best
  | full_name :: rest =>
      let parts := split full_name in
      match parts with
      | [] => suggest_loop requested rest best
      | _ :: _ =>
          p ← list_getitem parts 0;
          let first := lower p in
          let r := ratio requested first in
          if Qlt_bool (snd best) r
          then suggest_loop requested rest (Some full_name, r)
          else suggest_loop requested rest best
      end
  end.

Definition suggest_similar_member_by_first_name (requested_first_name : string)
    (messages : list MemberMessage) (min_similarity : Q)
    : result (option string) :=
  let requested := lower requested_first_name in
  let names := unique_names messages in
  best ← suggest_loop requested names (None, 0%Q);
  if truthy_opt (fst best) && Qle_bool min_similarity (snd best)
  then Ok (fst best)
  else Ok None.

Definition name_is (member : string) (m : MemberMessage) : bool :=
  match member_name m with
  | Some name => String.eqb name member
  | None => false
  end.

Definition filter_messages_for_member (messages : list MemberMessage)
    (member : string) : list MemberMessage :=
  List.filter (name_is member) messages.

(** ** Helper: classify question type *)

Inductive question_type : Type :=
| car_count
| trip_when
| favorite_restaurants
| generic.

Definition detect_question_type (question : string) : question_type :=
  let q := lower question in
  if contains "how many" q && contains "car" q then car_count
  else if contains "favorite" q && contains "restaurant" q
  then favorite_restaurants
  else if contains "when" q && contains "trip" q then trip_when
  else generic.

(** ** Specialized handlers *)

(** *** Car count *)

Definition extract_car_count_from_text (text : string) : result (option Z) :=
  match re_search CAR_COUNT_PATTERN (lower text) with
  | Some m =>
      match g ← group m 1; py_int int_max_str_digits g with
      | Ok n => Ok (Some n)
      | Raise ValueError => Ok None
      | Raise e => Raise e
      end
  | None => Ok None
  end.

Definition car_count_found (member_name : string) (count : Z) : string :=
  member_name +:+ " has " +:+ py_str count +:+ " car"
    +:+ (if negb (count =? 1)%Z then "s" else "") +:+ ".".

Definition car_count_not_found (member_name : string) : string :=
  "I couldn't find how many cars " +:+ member_name
    +:+ " has in their messages.".

(** The loop over [reversed(messages)]. *)
Fixpoint car_count_loop (member_name : string)
    (newest_first : list MemberMessage) : result string :=
  match newest_first with
  | [] => Ok (car_count_not_found member_name)
  | msg :: rest =>
      count ← extract_car_count_from_text (text msg);
      match count with
      | Some n => Ok (car_count_found member_name n)
      | None => car_count_loop member_name rest
      end
  end.

Definition answer_car_count (member_name : string)
    (messages : list MemberMessage) : result string :=
  car_count_loop member_name (rev messages).

(** *** Trip timing *)

Definition extract_destination_from_question (question : string)
    : result (option string) :=
  match re_search TRIP_TO_PATTERN question with
  | Some m => g ← group m 1; Ok (Some (strip g))
  | None => Ok None
  end.

Definition extract_date_phrase (text : string) : option string :=
  match re_search MONTH_PATTERN text with
  | Some m => Some (group0 m)
  | None =>
      match re_search DATE_SLASH_PATTERN text with
      | Some m => Some (group0 m)
      | None => None
      end
  end.

Definition mentions (needle_lower : string) (m : MemberMessage) : bool :=
  contains needle_lower (lower (text m)).

Definition trip_details_not_found (member_name : string) : string :=
  "I couldn't find any trip details for " +:+ member_name +:+ ".".

Definition trip_to_not_found (member_name destination : string) : string :=
  "I couldn't find any messages from " +:+ member_name
    +:+ " about a trip to " +:+ destination +:+ ".".

Definition trip_around (member_name date_phrase : string) : string :=
  member_name +:+ " seems to be planning a trip around " +:+ date_phrase
    +:+ ".".

Definition trip_to_around (member_name destination date_phrase : string)
    : string :=
  member_name +:+ " is planning their trip to " +:+ destination
    +:+ " around " +:+ date_phrase +:+ ".".

(** The branch taken when no destination is found. *)
Definition answer_trip_any (member_name : string)
    (messages : list MemberMessage) : result string :=
  let candidate_msgs := List.filter (mentions "trip") messages in
  match candidate_msgs with
  | [] => Ok (trip_details_not_found member_name)
  | _ :: _ =>
      latest ← list_last candidate_msgs;
      let date_phrase := extract_date_phrase (text latest) in
      match date_phrase with
      | Some d => if truthy d then Ok (trip_around member_name d)
                  else Ok (text latest)
      | None => Ok (text latest)
      end
  end.

(** The branch taken for a destination. *)
Definition answer_trip_to (member_name destination : string)
    (messages : list MemberMessage) : result string :=
  let dest_lower := lower destination in
  let candidate_msgs := List.filter (mentions dest_lower) messages in
  match candidate_msgs with
  | [] => Ok (trip_to_not_found member_name destination)
  | _ :: _ =>
      latest ← list_last candidate_msgs;
      let date_phrase := extract_date_phrase (text latest) in
      match date_phrase with
      | Some d => if truthy d then Ok (trip_to_around member_name destination d)
                  else Ok (text latest)
      | None => Ok (text latest)
      end
  end.

Definition answer_trip_when (question member_name : string)
    (messages : list MemberMessage) : result string :=
  destination ← extract_destination_from_question question;
  match destination with
  | Some d =>
      if negb (truthy d) then answer_trip_any member_name messages
      else answer_trip_to member_name d messages
  | None => answer_trip_any member_name messages
  end.

(** *** Favorite restaurants *)

Definition about_favorite_restaurants (m : MemberMessage) : bool :=
  let text_lower := lower (text m) in
  contains "favorite" text_lower && contains "restaurant" text_lower.

Definition favorites_not_found (member_name : string) : string :=
  "I couldn't find any messages about " +:+ member_name
    +:+ "'s favorite restaurants.".

Definition answer_favorite_restaurants (member_name : string)
    (messages : list MemberMessage) : result string :=
  let candidates :=
    map text (List.filter about_favorite_restaurants messages) in
  match candidates with
  | [] => Ok (favorites_not_found member_name)
  | _ :: _ =>
      if length candidates =? 1 then list_getitem candidates 0
      else
        let joined := String.concat " | " candidates in
        Ok (member_name +:+ "'s messages about favorite restaurants: "
              +:+ joined)
  end.

(** ** Main QA function *)

Definition NOTHING_RETRIEVED : string :=
  "I couldn't retrieve any member messages.".

Definition CANNOT_IDENTIFY : string :=
  "I couldn't identify which member the question is about.".

Definition no_messages_for (member_name : string) : string :=
  "I couldn't find any messages for " +:+ member_name +:+ ".".

Definition newline : string := String "010"%char EmptyString.

(** How an f-string renders an [Optional[str]]. *)
Definition fmt (o : option string) : string :=
  match o with
  | Some s => s
  | None => "None"
  end.

Definition clarification (requested_first_name suggested_name : option string)
    (core_answer : string) : string :=
  "I couldn't find any member named " +:+ fmt requested_first_name +:+ ", "
    +:+ "but I did find " +:+ fmt suggested_name +:+ ". "
    +:+ "Here is what their messages say:" +:+ newline +:+ newline
    +:+ core_answer.

(** Step 3-4 of the main function: the core answer by question type. *)
Definition core_answer_for (qtype : question_type) (question name : string)
    (member_msgs : list MemberMessage) : result string :=
  match qtype with
  | car_count => answer_car_count name member_msgs
  | trip_when => answer_trip_when question name member_msgs
  | favorite_restaurants => answer_favorite_restaurants name member_msgs
  | generic => latest_msg ← list_last member_msgs; Ok (text latest_msg)
  end.

Definition answer_question_baseline (question : string)
    (messages : list MemberMessage) : result string :=
  match messages with
  | [] => Ok NOTHING_RETRIEVED
  | _ :: _ =>
      strict ← find_member_name_in_question question messages;
      requested_first_name ← extract_requested_first_name question;
      suggested_name ←
        match requested_first_name with
        | Some requested =>
            if negb (truthy_opt strict) && truthy requested
            then suggest_similar_member_by_first_name requested messages (4 # 5)
            else Ok None
        | None => Ok None
        end;
      let member := if truthy_opt suggested_name then suggested_name
                    else strict in
      match member with
      | None => Ok CANNOT_IDENTIFY
      | Some name =>
          if negb (truthy name) then Ok CANNOT_IDENTIFY
          else
            let member_msgs := filter_messages_for_member messages name in
            match member_msgs with
            | [] => Ok (no_messages_for name)
            | _ :: _ =>
                let qtype := detect_question_type question in
                core_answer ← core_answer_for qtype question name member_msgs;
                if truthy_opt suggested_name && truthy_opt requested_first_name
                then Ok (clarification requested_first_name suggested_name
                           core_answer)
                else Ok core_answer
            end
      end
  end.

End Engine.

(** ** The similarity ratio of [difflib]

    [SequenceMatcher(None, a, b).ratio()] for texts under 200 characters
    (beyond that the library drops over-popular characters of [b] first):
    twice the number of matched characters over the total length, where
    the matched characters are found by taking the longest common block,
    leftmost in [a] and then in [b], and recursing on both sides of it. *)

Fixpoint common_prefix_len (a b : string) : nat :=
  match a, b with
  | String x a', String y b' =>
      if Ascii.eqb x y then S (common_prefix_len a' b') else 0
  | _, _ => 0
  end.

Fixpoint drop (n : nat) (s : string) : string :=
  match n, s with
  | S n', String _ s' => drop n' s'
  | _, _ => s
  end.

(** The best block [(i, j, k)] among those starting at [i] in [a], scanning
    the starts [j, j+1, ...] in [b]; a later block replaces the best one
    only when strictly longer. *)
Fixpoint best_in_b (a b : string) (i j : nat) (best : nat * nat * nat)
    : nat * nat * nat :=
  match b with
  | EmptyString => best
  | String _ b' =>
      let k := common_prefix_len a b in
      let best' := if snd best <? k then (i, j, k) else best in
      best_in_b a b' i (S j) best'
  end.

Fixpoint best_block (a b : string) (i : nat) (best : nat * nat * nat)
    : nat * nat * nat :=
  match a with
  | EmptyString => best
  | String _ a' => best_block a' b (S i) (best_in_b a b i 0 best)
  end.

(** [find_longest_match] over the whole of [a] and [b]. *)
Definition find_longest_match (a b : string) : nat * nat * nat :=
  best_block a b 0 (0, 0, 0).

(** The number of matched characters.  Each step takes a block out of
    [a], so a [fuel] above the length of [a] is never used up. *)
Fixpoint matched (fuel : nat) (a b : string) : nat :=
  match fuel with
  | 0 => 0
  | S fuel' =>
      let '(i, j, k) := find_longest_match a b in
      if k =? 0 then 0
      else matched fuel' (substring 0 i a) (substring 0 j b) + k
           + matched fuel' (drop (i + k) a) (drop (j + k) b)
  end.

Definition sequence_matcher_ratio (a b : string) : Q :=
  let total := String.length a + String.length b in
  if total =? 0 then 1%Q
  else Z.of_nat (2 * matched (S (String.length a)) a b)
       # Pos.of_nat total.

(** One possible iteration order of a set: that of first insertion. *)
Definition first_seen (l : list string) : list string :=
  rev (nodup String.string_dec (rev l)).

(** A runtime: sets iterate in the order of first insertion, the ratio is
    difflib's, and integer conversions have the default cap. *)
#[refine] Instance cpython : Runtime :=
  {| set_iter := first_seen;
     ratio := sequence_matcher_ratio;
     int_max_str_digits := 4300 |}.
Proof.
  - intros l. unfold first_seen. apply List.NoDup_rev, List.NoDup_nodup.
  - intros l x. unfold first_seen.
    rewrite <- in_rev, nodup_In, <- in_rev. reflexivity.
Defined.

(** ** The debug endpoint [member_names] ([app/api.py])

    The endpoint fetches the messages and counts them by name; this is
    what it computes from the messages fetched. *)

Module Api.

(** [(m.member_name or "").strip()] *)
Definition display_name (m : MemberMessage) : string :=
  strip (match member_name m with
         | Some name => if truthy name then name else ""
         | None => ""
         end).

(** [counts[name] += 1] on a [Counter]. *)
Definition count_step (counts : gmap string nat) (m : MemberMessage)
    : gmap string nat :=
  let name := display_name m in
  <[name := dict_get counts name 0 + 1]> counts.

(** [dict(counts)] after the loop over the messages. *)
Definition member_names (messages : list MemberMessage) : gmap string nat :=
  fold_left count_step messages ∅.

End Api.

(** * Vocabulary of the statements *)

(** The character before the position reached after reading [u]. *)
Fixpoint last_char (prev : option ascii) (u : string) : option ascii :=
  match u with
  | EmptyString => prev
  | String c u' => last_char (Some c) u'
  end.

(** A length allowed by the upper bound of a repetition. *)
Definition within (hi : option nat) (n : nat) : Prop :=
  match hi with
  | Some h => n <= h
  | None => True
  end.

(** The number of groups of a pattern, and whether every way of matching it
    closes that many. *)
Fixpoint ngroups (r : regex) : nat :=
  match r with
  | Seq r1 r2 => ngroups r1 + ngroups r2
  | Alt r1 _ => ngroups r1
  | Group r1 => S (ngroups r1)
  | _ => 0
  end.

Fixpoint uniform (r : regex) : bool :=
  match r with
  | Seq r1 r2 => uniform r1 && uniform r2
  | Alt r1 r2 => uniform r1 && uniform r2 && (ngroups r1 =? ngroups r2)
  | Opt r1 => uniform r1 && (ngroups r1 =? 0)
  | Group r1 => uniform r1
  | _ => true
  end.

(** The lower-cased first name of a member, if the name has a word. *)
Definition first_name (name : string) : option string :=
  match split name with
  | [] => None
  | p :: _ => Some (lower p)
  end.

Definition has_first (first name : string) : bool :=
  match first_name name with
  | Some f => String.eqb f first
  | None => false
  end.

(** The full names a first name maps to. *)
Definition sharing_first (first : string) (names : list string) : list string :=
  List.filter (has_first first) names.

(** The candidates a token contributes to the popularity rule. *)
Definition ambiguous_for (names : list string) (token : string) : list string :=
  let l := sharing_first token names in
  if 1 <? length l then l else [].

(** All of them, in the order the rule meets them. *)
Definition all_candidates (names tokens : list string) : list string :=
  flat_map (ambiguous_for names) tokens.

(** A name whose lower-cased text occurs in the lower-cased question. *)
Definition full_name_hit (q_lower name : string) : bool :=
  truthy name && contains (lower name) q_lower.

(** The number of messages of a member. *)
Definition message_count (messages : list MemberMessage) (name : string)
    : nat :=
  length (filter_messages_for_member messages name).

(** The order of [sorted(..., key=len, reverse=True)]. *)
Definition longer_first (a b : string) : Prop :=
  String.length b <= String.length a.

(** [d] is the first-name map of [names]. *)
Definition first_map_of (names : list string) (d : gmap string (list string))
    : Prop :=
  forall f, d !! f = match sharing_first f names with
                     | [] => None
                     | l => Some l
                     end.

(** The similarity of a requested first name to a member: that of their
    first names, when the member has one. *)
Definition similarity (ratio : string -> string -> Q) (requested name : string)
    : option Q :=
  option_map (ratio requested) (first_name name).

(** The least number of characters a match of a pattern reads. *)
Fixpoint min_len (r : regex) : nat :=
  match r with
  | Eps => 0
  | Chr _ => 1
  | Seq r1 r2 => min_len r1 + min_len r2
  | Alt r1 r2 => Nat.min (min_len r1) (min_len r2)
  | Opt _ => 0
  | Rep _ lo _ => lo
  | WordB => 0
  | Group r1 => min_len r1
  end.

(** An occurrence of a car count in a text: digits [ds] at a word
    boundary, then blanks [ws], then the prefix [car]. *)
Definition car_occurrence (t pre ds ws post : string) : Prop :=
  t = pre +:+ ds +:+ ws +:+ "car" +:+ post
  /\ truthy ds = true /\ all_chars is_digit ds = true
  /\ truthy ws = true /\ all_chars is_space ws = true
  /\ word_before (last_char None pre) = false.

(** Whether [int] accepts a text of digits under the interpreter's cap. *)
Definition within_cap (int_max_str_digits : nat) (u : string) : bool :=
  (int_max_str_digits =? 0) || (String.length u <=? int_max_str_digits).

(** A text starts with no character of a class. *)
Definition starts_outside (p : ascii -> bool) (s : string) : Prop :=
  match s with
  | EmptyString => True
  | String c _ => p c = false
  end.

(** [\b(\d+) car]: the car-count pattern with a single space for the
    blanks. *)
Definition SINGLE_SPACE_PATTERN : regex :=
  seq [WordB; Group (Rep is_digit 1 None); lit " car"].

(** * Sample data *)

(** A message of a member, as the data client builds one. *)
Definition message (name body : string) : MemberMessage :=
  {| member_id := None; member_name := Some name; text := body;
     created_at := None |}.

Definition sophia_and_namesake : list MemberMessage :=
  [message "Sophia Jones" "Good morning";
   message "Sophia Al-Farsi" "My favorite restaurant is Nobu";
   message "Sophia Jones" "See you later"].

Definition layla_and_bob : list MemberMessage :=
  [message "Layla Smith" "I have 1 car";
   message "Layla Jones" "Hello from Lisbon";
   message "Layla Smith" "Actually now I have 2 cars";
   message "Bob Stone" "Back on Monday"].

Definition two_laylas : list MemberMessage :=
  [message "Layla Jones" "Hello from Lisbon";
   message "Layla Smith" "I have 1 car";
   message "Layla Smith" "Actually now I have 2 cars"].

Definition echo_of_fallback : list MemberMessage :=
  [message "Bob Stone" "I couldn't find any messages for Bob Stone."].

Definition amina_only : list MemberMessage :=
  [message "Amina Van Den Berg" "My favorite restaurant is Nobu"].

Definition paris_then_rome : list MemberMessage :=
  [message "Amina Van Den Berg" "Planning a trip to Paris on June 5th, 2025";
   message "Amina Van Den Berg" "Then a trip to Rome on 06/07/2025";
   message "Amina Van Den Berg" "Paris will be lovely"].

(** * Vocabulary of the further properties *)

(** A message that carries a name. *)
Definition named (m : MemberMessage) : bool := truthy_opt (member_name m).



(** The three letters every month name of the month pattern begins with. *)
Definition MONTHS : list string :=
  ["Jan"; "Feb"; "Mar"; "Apr"; "May"; "Jun";
   "Jul"; "Aug"; "Sep"; "Oct"; "Nov"; "Dec"].

(** A text that begins with a month. *)
Definition month_phrase (d : string) : Prop :=
  exists month rest, In month MONTHS /\ d = month +:+ rest.

(** A date written with slashes: one or two digits, one or two digits, two
    to four digits. *)
Definition slash_date (d : string) : Prop :=
  exists a b c,
    d = a +:+ "/" +:+ b +:+ "/" +:+ c
    /\ all_chars is_digit a = true /\ all_chars is_digit b = true
    /\ all_chars is_digit c = true
    /\ 1 <= String.length a <= 2 /\ 1 <= String.length b <= 2
    /\ 2 <= String.length c <= 4.


(** A message listed under the name [k] by the debug endpoint. *)
Definition shown_as (k : string) (m : MemberMessage) : bool :=
  String.eqb (Api.display_name m) k.

(** The sum of the counters of a dictionary. *)
Definition total (counts : gmap string nat) : nat :=
  map_fold (fun _ v acc => v + acc) 0 counts.

Definition bob_and_his_trip : list MemberMessage :=
  [message "Bob Stone" "My trip starts on March 3rd";
   message "Bob Stone" "Back on Monday"].

(** * Properties *)

(** ** The primitives on sample inputs

    Each is what the interpreter returns on this input. *)

Example search_possessive_1 :
  re_search POSSESSIVE_PATTERN "What are Amira's favorite restaurants?"
  = Some {| group0 := "Amira's"; groups := ["Amira"] |}.
Proof. reflexivity. Qed.

Example search_possessive_2 :
  re_search POSSESSIVE_PATTERN "Amira'st it's"
  = Some {| group0 := "it's"; groups := ["it"] |}.
Proof. reflexivity. Qed.

Example search_possessive_3 :
  re_search POSSESSIVE_PATTERN "x_y's 9's"
  = None.
Proof. reflexivity. Qed.

Example search_car_count_4 :
  re_search CAR_COUNT_PATTERN "i have 12  cars and 3 car"
  = Some {| group0 := "12  car"; groups := ["12"] |}.
Proof. reflexivity. Qed.

Example search_car_count_5 :
  re_search CAR_COUNT_PATTERN "a12 cars x3 car 4car"
  = None.
Proof. reflexivity. Qed.

Example search_car_count_6 :
  re_search CAR_COUNT_PATTERN "007 carpets"
  = Some {| group0 := "007 car"; groups := ["007"] |}.
Proof. reflexivity. Qed.

Example search_month_7 :
  re_search MONTH_PATTERN "we leave on June 5th, 2025 at noon"
  = Some {| group0 := "June 5th, 2025"; groups := [] |}.
Proof. reflexivity. Qed.

Example search_month_8 :
  re_search MONTH_PATTERN "Sept 12345"
  = Some {| group0 := "Sept 12"; groups := [] |}.
Proof. reflexivity. Qed.

Example search_month_9 :
  re_search MONTH_PATTERN "Janu 5 Mayday May  3rd"
  = Some {| group0 := "May  3rd"; groups := [] |}.
Proof. reflexivity. Qed.

Example search_month_10 :
  re_search MONTH_PATTERN "September 1,  20256"
  = Some {| group0 := "September 1,  2025"; groups := [] |}.
Proof. reflexivity. Qed.

Example search_month_11 :
  re_search MONTH_PATTERN "june 5"
  = None.
Proof. reflexivity. Qed.

Example search_date_slash_12 :
  re_search DATE_SLASH_PATTERN "on 06/05/2025."
  = Some {| group0 := "06/05/2025"; groups := [] |}.
Proof. reflexivity. Qed.

Example search_date_slash_13 :
  re_search DATE_SLASH_PATTERN "on 06/05/20251 1/2/34"
  = Some {| group0 := "1/2/34"; groups := [] |}.
Proof. reflexivity. Qed.

Example search_date_slash_14 :
  re_search DATE_SLASH_PATTERN "on 123/05/2025"
  = None.
Proof. reflexivity. Qed.

Example search_trip_to_15 :
  re_search TRIP_TO_PATTERN "When is Layla's TRIP TO Rome?"
  = Some {| group0 := "TRIP TO Rome?"; groups := ["Rome"] |}.
Proof. reflexivity. Qed.

Example search_trip_to_16 :
  re_search TRIP_TO_PATTERN "her trip to New York next week? ok"
  = Some {| group0 := "trip to New York next week?"; groups := ["New York next week"] |}.
Proof. reflexivity. Qed.

Example search_trip_to_17 :
  re_search TRIP_TO_PATTERN "trip to ?"
  = None.
Proof. reflexivity. Qed.

Example search_trip_to_18 :
  re_search TRIP_TO_PATTERN "trip to  ?"
  = Some {| group0 := "trip to  ?"; groups := [" "] |}.
Proof. reflexivity. Qed.

Example ratio_amira_amina :
  (sequence_matcher_ratio "amira" "amina" == 8 # 10)%Q.
Proof. reflexivity. Qed.

Example ratio_layla_leila :
  (sequence_matcher_ratio "layla" "leila" == 4 # 10)%Q.
Proof. reflexivity. Qed.

Example ratio_zed_bob :
  (sequence_matcher_ratio "zed" "bob" == 0 # 6)%Q.
Proof. reflexivity. Qed.

Example ratio_sofia_sophia :
  (sequence_matcher_ratio "sofia" "sophia" == 8 # 11)%Q.
Proof. reflexivity. Qed.

Example split_blanks :
  split "  What are  Amira's favorite?  "
  = ["What"; "are"; "Amira's"; "favorite?"].
Proof. reflexivity. Qed.

Example findall_letters :
  findall_alpha "amira's car2x" = ["amira"; "s"; "car"; "x"].
Proof. reflexivity. Qed.

Example keep_word_chars_punctuation : keep_word_chars "Amira?_1!" = "Amira_1".
Proof. reflexivity. Qed.

Example sorted_stable :
  sorted_by_len_desc ["Bob"; "Al"; "Eve"; "Zoe"; "Li"; "Sophia"]
  = ["Sophia"; "Bob"; "Eve"; "Zoe"; "Al"; "Li"].
Proof. reflexivity. Qed.

Example int_leading_zeros : py_int 4300 "007" = Ok 7%Z.
Proof. reflexivity. Qed.

(** ** The error monad and the list primitives *)

Lemma bind_Ok {A B} (f : A -> result B) (a : A) : (Ok a ≫= f) = f a.
Proof. reflexivity. Qed.

Lemma bind_Ok_inv {A B} (f : A -> result B) (r : result A) (b : B) :
  (r ≫= f) = Ok b -> exists a, r = Ok a /\ f a = Ok b.
Proof. destruct r as [a|e]; simpl; [eauto | discriminate]. Qed.

Lemma truthy_iff (s : string) : truthy s = true <-> s <> "".
Proof. destruct s; simpl; split; congruence. Qed.

Lemma truthy_opt_Some (o : option string) :
  truthy_opt o = true -> exists s, o = Some s /\ truthy s = true.
Proof. destruct o; simpl; [eauto | discriminate]. Qed.

Lemma list_last_snoc {A} (l : list A) (x : A) : list_last (l ++ [x]) = Ok x.
Proof. unfold list_last. rewrite rev_unit. reflexivity. Qed.

Lemma list_last_cons {A} (x : A) (l : list A) :
  exists l' y, x :: l = l' ++ [y] /\ list_last (x :: l) = Ok y.
Proof.
  destruct (@exists_last A (x :: l)) as [l' [y E]]; [discriminate|].
  exists l', y. split; [exact E|]. rewrite E. apply list_last_snoc.
Qed.

Lemma filter_snoc_last {A} (f : A -> bool) (l l' : list A) (y : A) :
  List.filter f l = l' ++ [y] ->
  exists older newer, l = older ++ y :: newer /\ f y = true
                      /\ List.filter f newer = [] /\ List.filter f older = l'.
Proof.
  revert l'. induction l as [|x l IH]; intros l' E; simpl in E.
  - destruct l'; discriminate.
  - destruct (f x) eqn:Fx.
    + destruct (List.filter f l) as [|z fl] eqn:Efl.
      * destruct l' as [|? [|? ?]]; try discriminate. injection E as ->.
        exists [], l. auto.
      * destruct l' as [|w l'']; [discriminate|]. injection E as <- E.
        destruct (IH l'' E) as (older & newer & -> & Fy & N & O).
        exists (x :: older), newer. simpl. rewrite Fx, O. auto.
    + destruct (IH l' E) as (older & newer & -> & Fy & N & O).
      exists (x :: older), newer. simpl. rewrite Fx. auto.
Qed.

(** ** Texts *)

Lemma sapp_assoc (a b c : string) : (a +:+ b) +:+ c = a +:+ (b +:+ c).
Proof. induction a as [|x a IH]; simpl; congruence. Qed.

Lemma sapp_nil_r (a : string) : a +:+ "" = a.
Proof. induction a as [|x a IH]; simpl; congruence. Qed.

Lemma slength_app (a b : string) :
  String.length (a +:+ b) = String.length a + String.length b.
Proof. induction a as [|x a IH]; simpl; congruence. Qed.

Lemma sapp_eq_nil (a b : string) : a +:+ b = "" -> a = "" /\ b = "".
Proof. destruct a; simpl; [auto | discriminate]. Qed.

Lemma substring_0_app (u s : string) :
  substring 0 (String.length u) (u +:+ s) = u.
Proof.
  induction u as [|x u IH]; simpl.
  - destruct s; reflexivity.
  - now rewrite IH.
Qed.

Lemma consumed_app (u s : string) : consumed (u +:+ s) s = u.
Proof.
  unfold consumed. rewrite slength_app.
  replace (String.length u + String.length s - String.length s)
    with (String.length u) by lia.
  apply substring_0_app.
Qed.

Lemma sapp_inv_length (a b a' b' : string) :
  a +:+ b = a' +:+ b' -> String.length a = String.length a' ->
  a = a' /\ b = b'.
Proof.
  revert a'. induction a as [|x a IH]; intros [|y a'] E L; simpl in *;
    try discriminate; [auto|].
  injection E as -> E. injection L as L.
  destruct (IH _ E L) as [-> ->]. auto.
Qed.

Lemma all_chars_app (p : ascii -> bool) (a b : string) :
  all_chars p (a +:+ b) = all_chars p a && all_chars p b.
Proof.
  induction a as [|x a IH]; simpl; [reflexivity|].
  rewrite IH. now rewrite andb_assoc.
Qed.

Lemma last_char_app (prev : option ascii) (a b : string) :
  last_char prev (a +:+ b) = last_char (last_char prev a) b.
Proof. revert prev. induction a as [|x a IH]; intros; simpl; auto. Qed.

(** ** The matcher *)

(** The end positions of a repetition are exactly the ends of the runs of
    class characters of an allowed length. *)
Lemma rep_In (p : ascii -> bool) (lo : nat) (hi : option nat)
    (prev : option ascii) (s : string) (e : position) :
  In e (rep p lo hi prev s) <->
  exists u, s = u +:+ snd e /\ fst e = last_char prev u
            /\ all_chars p u = true /\ lo <= String.length u
            /\ within hi (String.length u).
Proof.
  revert lo hi prev.
  assert (Stop : forall lo prev s0,
    In e (match lo with 0 => [(prev, s0)] | S _ => [] end) <->
    (e = (prev, s0) /\ lo = 0)).
  { intros [|lo] prev s0; simpl; split; intros H.
    - destruct H as [<-|[]]. auto.
    - left. symmetry. tauto.
    - destruct H.
    - destruct H; discriminate. }
  assert (Stop' : forall lo hi prev s0,
    (e = (prev, s0) /\ lo = 0) ->
    exists u, s0 = u +:+ snd e /\ fst e = last_char prev u
              /\ all_chars p u = true /\ lo <= String.length u
              /\ within hi (String.length u)).
  { intros lo hi prev s0 [-> ->]. exists "". simpl.
    repeat split; auto. destruct hi; simpl; lia. }
  induction s as [|c s IH]; intros lo hi prev; simpl.
  - rewrite (Stop lo). split.
    + apply Stop'.
    + intros (u & E & F & A & L & W). symmetry in E.
      apply sapp_eq_nil in E as [-> E]. simpl in *.
      destruct e as [e1 e2]; simpl in *. subst. split; [reflexivity|lia].
  - destruct (p c && can_take hi) eqn:T.
    + apply andb_true_iff in T as [Pc Ct].
      rewrite in_app_iff, IH, (Stop lo). split.
      * intros [(u & E & F & A & L & W) | H].
        -- exists (String c u). simpl. rewrite Pc, <- E, <- F.
           repeat split; auto; [lia|].
           destruct hi as [[|h]|]; simpl in *; try discriminate; lia.
        -- now apply Stop'.
      * intros (u & E & F & A & L & W). destruct u as [|c' u]; simpl in *.
        -- right. destruct e as [e1 e2]; simpl in *. subst.
           split; [reflexivity|lia].
        -- injection E as <- E. apply andb_true_iff in A as [_ A].
           left. exists u. repeat split; auto; [lia|].
           destruct hi as [[|h]|]; simpl in *; try discriminate; lia.
    + rewrite (Stop lo). split.
      * apply Stop'.
      * intros (u & E & F & A & L & W). destruct u as [|c' u]; simpl in *.
        -- destruct e as [e1 e2]; simpl in *. subst.
           split; [reflexivity|lia].
        -- injection E as <- E. apply andb_true_iff in A as [Pc A].
           rewrite Pc in T. simpl in T.
           destruct hi as [[|h]|]; simpl in *; try discriminate; lia.
Qed.

Lemma rmatch_Seq_In (r1 r2 : regex) prev s (e : position) (g : list string) :
  In (e, g) (rmatch (Seq r1 r2) prev s) <->
  exists p1 s1 g1 g2,
    In ((p1, s1), g1) (rmatch r1 prev s)
    /\ In (e, g2) (rmatch r2 p1 s1) /\ g = g1 ++ g2.
Proof.
  simpl. rewrite in_flat_map. split.
  - intros ([[p1 s1] g1] & H1 & H2). apply in_map_iff in H2.
    destruct H2 as ([e' g2] & E & H2). injection E as -> <-.
    exists p1, s1, g1, g2. auto.
  - intros (p1 & s1 & g1 & g2 & H1 & H2 & ->).
    exists ((p1, s1), g1). split; [exact H1|].
    apply in_map_iff. exists (e, g2). auto.
Qed.

Lemma rmatch_Group_In (r : regex) prev s (e : position) (g : list string) :
  In (e, g) (rmatch (Group r) prev s) <->
  exists g', In (e, g') (rmatch r prev s) /\ g = consumed s (snd e) :: g'.
Proof.
  simpl. rewrite in_map_iff. split.
  - intros ([[p1 s1] g'] & E & H). injection E as <- <-. eauto.
  - intros (g' & H & ->). exists (e, g'). destruct e. auto.
Qed.

Lemma rmatch_Rep_In p lo hi prev s (e : position) (g : list string) :
  In (e, g) (rmatch (Rep p lo hi) prev s) <->
  g = [] /\ In e (rep p lo hi prev s).
Proof.
  simpl. rewrite in_map_iff. split.
  - intros (e' & E & H). injection E as -> <-. auto.
  - intros [-> H]. eauto.
Qed.

Lemma rmatch_WordB_In prev s (e : position) (g : list string) :
  In (e, g) (rmatch WordB prev s) <->
  e = (prev, s) /\ g = [] /\ xorb (word_before prev) (word_after s) = true.
Proof.
  simpl. destruct (xorb _ _); simpl; split.
  - intros [E|[]]. injection E as <- <-. auto.
  - intros (-> & -> & _). auto.
  - intros [].
  - intros (_ & _ & H). discriminate.
Qed.

Lemma rmatch_Eps_In prev s (e : position) (g : list string) :
  In (e, g) (rmatch Eps prev s) <-> e = (prev, s) /\ g = [].
Proof.
  simpl. split.
  - intros [E|[]]. injection E as <- <-. auto.
  - intros (-> & ->). auto.
Qed.

Lemma rmatch_Chr_In p prev s (e : position) (g : list string) :
  In (e, g) (rmatch (Chr p) prev s) <->
  exists c, s = String c (snd e) /\ fst e = Some c /\ p c = true /\ g = [].
Proof.
  simpl. destruct s as [|c s]; simpl.
  - split; [intros [] | intros (c & E & _); discriminate].
  - destruct (p c) eqn:Pc; simpl; split.
    + intros [E|[]]. injection E as <- <-. exists c. auto.
    + intros (c' & E & F & _ & ->). injection E as <- E.
      destruct e as [e1 e2]; simpl in *. subst. auto.
    + intros [].
    + intros (c' & E & _ & Pc' & _). injection E as <- _. congruence.
Qed.

(** A literal matches exactly itself. *)
Lemma rmatch_lit_In (s0 : string) prev s (e : position) (g : list string) :
  In (e, g) (rmatch (lit s0) prev s) <->
  s = s0 +:+ snd e /\ fst e = last_char prev s0 /\ g = [].
Proof.
  unfold lit. revert prev s. induction s0 as [|c s0 IH]; intros prev s.
  - simpl lit_gen. rewrite rmatch_Eps_In. simpl. split.
    + intros [-> ->]. auto.
    + intros (-> & F & ->). destruct e; simpl in *. subst. auto.
  - simpl lit_gen. rewrite rmatch_Seq_In. split.
    + intros (p1 & s1 & g1 & g2 & H1 & H2 & ->).
      apply rmatch_Chr_In in H1 as (c' & -> & F & E & ->). simpl in *.
      apply Ascii.eqb_eq in E. subst c' p1.
      apply IH in H2 as (-> & F2 & ->). auto.
    + intros (-> & F & ->). exists (Some c), (s0 +:+ snd e), [], [].
      split; [|split; [|reflexivity]].
      * apply rmatch_Chr_In. exists c. simpl.
        rewrite Ascii.eqb_refl. auto.
      * apply IH. auto.
Qed.

(** Every match of a uniform pattern closes all its groups. *)
Lemma rmatch_groups (r : regex) :
  uniform r = true ->
  forall prev s e g, In (e, g) (rmatch r prev s) -> length g = ngroups r.
Proof.
  induction r as [|p|r1 IH1 r2 IH2|r1 IH1 r2 IH2|r1 IH1|p lo hi| |r1 IH1];
    intros U prev s e g H.
  - apply rmatch_Eps_In in H as [_ ->]. reflexivity.
  - apply rmatch_Chr_In in H as (c & _ & _ & _ & ->). reflexivity.
  - simpl in U. apply andb_true_iff in U as [U1 U2].
    apply rmatch_Seq_In in H as (p1 & s1 & g1 & g2 & H1 & H2 & ->).
    rewrite length_app. simpl.
    erewrite IH1, IH2; eauto.
  - simpl in U. apply andb_true_iff in U as [U U3].
    apply andb_true_iff in U as [U1 U2]. apply Nat.eqb_eq in U3.
    simpl in H. apply in_app_iff in H as [H|H]; simpl.
    + eapply IH1; eauto.
    + rewrite U3. eapply IH2; eauto.
  - simpl in U. apply andb_true_iff in U as [U1 U2]. apply Nat.eqb_eq in U2.
    simpl in H. apply in_app_iff in H as [H|[H|[]]]; simpl.
    + rewrite <- U2. eapply IH1; eauto.
    + injection H as _ <-. reflexivity.
  - apply rmatch_Rep_In in H as [-> _]. reflexivity.
  - apply rmatch_WordB_In in H as (_ & -> & _). reflexivity.
  - simpl in U. apply rmatch_Group_In in H as (g' & H & ->). simpl.
    f_equal. eapply IH1; eauto.
Qed.

(** [re.search] finds the first match of the leftmost position that has
    one. *)
Lemma search_from_Some (r : regex) prev s (m : Match) :
  search_from r prev s = Some m <->
  exists pre s1 e g tl,
    s = pre +:+ s1
    /\ rmatch r (last_char prev pre) s1 = (e, g) :: tl
    /\ m = {| group0 := consumed s1 (snd e); groups := g |}
    /\ forall pre' s1', s = pre' +:+ s1' ->
         String.length pre' < String.length pre ->
         rmatch r (last_char prev pre') s1' = [].
Proof.
  revert prev. induction s as [|c s IH]; intros prev; simpl.
  - destruct (rmatch r prev "") as [|[[p' s'] g] tl] eqn:R.
    + split; [discriminate|].
      intros (pre & s1 & e & g & tl & E & R' & _). symmetry in E.
      apply sapp_eq_nil in E as [-> ->]. simpl in R'. congruence.
    + split.
      * intros E. injection E as <-. exists "", "", (p', s'), g, tl.
        simpl. repeat split; auto. intros ? ? _ L. simpl in L. lia.
      * intros (pre & s1 & e & g' & tl' & E & R' & -> & _). symmetry in E.
        apply sapp_eq_nil in E as [-> ->]. simpl in R'.
        rewrite R in R'. injection R' as <- <- <-. reflexivity.
  - destruct (rmatch r prev (String c s)) as [|[[p' s'] g] tl] eqn:R.
    + rewrite IH. split.
      * intros (pre & s1 & e & g & tl & -> & R' & -> & Lm).
        exists (String c pre), s1, e, g, tl. simpl. repeat split; auto.
        intros [|c' pre'] s1' E L; simpl in *.
        -- subst s1'. exact R.
        -- injection E as <- E. apply Lm; [exact E|lia].
      * intros ([|c' pre] & s1 & e & g & tl & E & R' & -> & Lm); simpl in *.
        -- subst s1. congruence.
        -- injection E as <- E. exists pre, s1, e, g, tl.
           repeat split; auto. intros pre' s1' E' L.
           apply (Lm (String c pre') s1'); simpl; [congruence|lia].
    + split.
      * intros E. injection E as <-.
        exists "", (String c s), (p', s'), g, tl. simpl.
        repeat split; auto. intros ? ? _ L. simpl in L. lia.
      * intros ([|c' pre] & s1 & e & g' & tl' & E & R' & -> & Lm);
          simpl in *.
        -- subst s1. rewrite R in R'. injection R' as <- <- <-. reflexivity.
        -- specialize (Lm "" (String c s) eq_refl). simpl in Lm.
           rewrite R in Lm. discriminate Lm. lia.
Qed.

Lemma search_from_None (r : regex) prev s :
  search_from r prev s = None <->
  forall pre s1, s = pre +:+ s1 -> rmatch r (last_char prev pre) s1 = [].
Proof.
  revert prev. induction s as [|c s IH]; intros prev; simpl.
  - destruct (rmatch r prev "") as [|[[p' s'] g] tl] eqn:R.
    + split; [|reflexivity]. intros _ pre s1 E. symmetry in E.
      apply sapp_eq_nil in E as [-> ->]. exact R.
    + split; [discriminate|]. intros H. specialize (H "" "" eq_refl).
      simpl in H. congruence.
  - destruct (rmatch r prev (String c s)) as [|[[p' s'] g] tl] eqn:R.
    + rewrite IH. split.
      * intros H [|c' pre] s1 E; simpl in *.
        -- subst s1. exact R.
        -- injection E as <- E. now apply H.
      * intros H pre s1 E. apply (H (String c pre) s1). simpl. congruence.
    + split; [discriminate|]. intros H.
      specialize (H "" (String c s) eq_refl). simpl in H. congruence.
Qed.

(** The groups of a match found by [re.search]. *)
Lemma search_groups (r : regex) (s : string) (m : Match) :
  uniform r = true -> re_search r s = Some m ->
  length (groups m) = ngroups r.
Proof.
  intros U H. apply search_from_Some in H.
  destruct H as (pre & s1 & e & g & tl & _ & R & -> & _). simpl.
  apply (rmatch_groups r U (last_char None pre) s1 e g).
  rewrite R. left. reflexivity.
Qed.

Lemma group_1_Ok (m : Match) :
  length (groups m) = 1 -> exists g, groups m = [g] /\ group m 1 = Ok g.
Proof.
  unfold group, list_getitem. destruct (groups m) as [|g [|? ?]];
    simpl; try discriminate. eauto.
Qed.

(** ** Names, counts and the sort *)

Lemma member_names_In (messages : list MemberMessage) (n : string) :
  In n (member_names messages) <->
  truthy n = true /\ exists m, In m messages /\ member_name m = Some n.
Proof.
  induction messages as [|m ms IH]; simpl.
  - split; [intros [] | intros (_ & m & [] & _)].
  - destruct (member_name m) as [name|] eqn:E.
    + destruct (truthy name) eqn:T; simpl; rewrite IH; split.
      * intros [<-|(Tn & m' & I & E')]; [eauto 6 | eauto 6].
      * intros (Tn & m' & [<-|I] & E'); [left; congruence | eauto 6].
      * intros (Tn & m' & I & E'). eauto 6.
      * intros (Tn & m' & [<-|I] & E'); [congruence | eauto 6].
    + rewrite IH. split.
      * intros (Tn & m' & I & E'). eauto 6.
      * intros (Tn & m' & [<-|I] & E'); [congruence | eauto 6].
Qed.

Lemma name_is_true (n : string) (m : MemberMessage) :
  name_is n m = true <-> member_name m = Some n.
Proof.
  unfold name_is. destruct (member_name m) as [x|].
  - rewrite String.eqb_eq. split; congruence.
  - split; discriminate.
Qed.

Lemma filter_messages_nonempty (messages : list MemberMessage) (n : string) :
  In n (member_names messages) -> filter_messages_for_member messages n <> [].
Proof.
  intros H. apply member_names_In in H as (_ & m & I & E).
  unfold filter_messages_for_member. intros F.
  assert (In m (List.filter (name_is n) messages)) as J.
  { apply filter_In. split; [exact I | now apply name_is_true]. }
  rewrite F in J. exact J.
Qed.

Lemma dict_get_insert {V} (d : gmap string V) (k k' : string) (v dflt : V) :
  dict_get (<[k := v]> d) k' dflt
  = if String.eqb k k' then v else dict_get d k' dflt.
Proof.
  unfold dict_get. destruct (String.eqb_spec k k') as [->|N].
  - now rewrite lookup_insert_eq.
  - now rewrite lookup_insert_ne.
Qed.

Lemma count_fold (messages : list MemberMessage) (d : gmap string nat)
    (n : string) :
  truthy n = true ->
  dict_get (fold_left count_step messages d) n 0
  = dict_get d n 0 + length (List.filter (name_is n) messages).
Proof.
  intros Tn. revert d.
  induction messages as [|m ms IH]; intros d; simpl; [lia|].
  rewrite IH. unfold count_step, name_is.
  destruct (member_name m) as [name|]; [|simpl; lia].
  destruct (truthy name) eqn:T.
  - rewrite dict_get_insert.
    destruct (String.eqb_spec name n) as [->|N]; simpl; lia.
  - destruct (String.eqb_spec name n) as [->|N]; simpl; [congruence|lia].
Qed.

(** The counter of a member is the number of their messages. *)
Lemma count_messages_spec (messages : list MemberMessage) (n : string) :
  truthy n = true ->
  dict_get (count_messages messages) n 0 = message_count messages n.
Proof.
  intros Tn. unfold count_messages, message_count, filter_messages_for_member.
  rewrite (count_fold _ _ _ Tn). unfold dict_get.
  rewrite lookup_empty. reflexivity.
Qed.

Lemma message_count_pos (messages : list MemberMessage) (n : string) :
  In n (member_names messages) -> 0 < message_count messages n.
Proof.
  intros H. apply filter_messages_nonempty in H. unfold message_count.
  destruct (filter_messages_for_member messages n); [congruence|simpl; lia].
Qed.

Lemma insert_by_len_In (x : string) (l : list string) (y : string) :
  In y (insert_by_len x l) <-> y = x \/ In y l.
Proof.
  induction l as [|z l IH]; simpl.
  - intuition congruence.
  - destruct (String.length z <=? String.length x); simpl.
    + intuition congruence.
    + rewrite IH. intuition congruence.
Qed.

Lemma sorted_by_len_desc_In (l : list string) (y : string) :
  In y (sorted_by_len_desc l) <-> In y l.
Proof.
  induction l as [|x l IH]; simpl; [reflexivity|].
  rewrite insert_by_len_In, IH. intuition congruence.
Qed.

Lemma insert_by_len_sorted (x : string) (l : list string) :
  StronglySorted longer_first l ->
  StronglySorted longer_first (insert_by_len x l).
Proof.
  induction 1 as [|z l S IH F]; simpl.
  - constructor; constructor.
  - destruct (String.length z <=? String.length x) eqn:L.
    + apply Nat.leb_le in L. constructor; [constructor; assumption|].
      constructor; [exact L|].
      revert F. apply List.Forall_impl. unfold longer_first. intros; lia.
    + apply Nat.leb_gt in L. constructor; [exact IH|].
      apply List.Forall_forall. intros y Hy. apply insert_by_len_In in Hy.
      destruct Hy as [->|Hy].
      * unfold longer_first. lia.
      * rewrite List.Forall_forall in F. now apply F.
Qed.

Lemma sorted_by_len_desc_sorted (l : list string) :
  StronglySorted longer_first (sorted_by_len_desc l).
Proof.
  induction l as [|x l IH]; simpl; [constructor|].
  now apply insert_by_len_sorted.
Qed.

(** The scan for a full name stops at the first hit. *)
Lemma full_name_loop_find (q_lower : string) (names : list string) :
  full_name_loop q_lower names = List.find (full_name_hit q_lower) names.
Proof.
  induction names as [|n names IH]; simpl; [reflexivity|].
  unfold full_name_hit at 1. destruct (truthy n); simpl; [|exact IH].
  destruct (contains (lower n) q_lower); [reflexivity|exact IH].
Qed.

Lemma find_first {A} (f : A -> bool) (l : list A) (x : A) :
  List.find f l = Some x <->
  exists l1 l2, l = l1 ++ x :: l2 /\ f x = true
                /\ forall y, In y l1 -> f y = false.
Proof.
  induction l as [|a l IH]; simpl.
  - split; [discriminate|]. intros ([|? ?] & l2 & E & _); discriminate.
  - destruct (f a) eqn:Fa.
    + split.
      * intros E. injection E as <-. exists [], l. simpl. tauto.
      * intros ([|b l1] & l2 & E & Fx & N); simpl in E; injection E as <- E.
        -- reflexivity.
        -- specialize (N a (or_introl eq_refl)). congruence.
    + rewrite IH. split.
      * intros (l1 & l2 & -> & Fx & N). exists (a :: l1), l2. simpl.
        repeat split; auto. intros y [<-|H]; auto.
      * intros ([|b l1] & l2 & E & Fx & N); simpl in E; injection E as <- E.
        -- congruence.
        -- exists l1, l2. repeat split; auto. intros y H. apply N. now right.
Qed.

Lemma find_sorted_longest (f : string -> bool) (l : list string) (x : string) :
  StronglySorted longer_first l -> List.find f l = Some x ->
  forall y, In y l -> f y = true -> String.length y <= String.length x.
Proof.
  intros S H y Hy Fy. apply find_first in H as (l1 & l2 & -> & Fx & N).
  apply in_app_iff in Hy as [Hy|[<-|Hy]].
  - rewrite (N y Hy) in Fy. discriminate.
  - lia.
  - clear N. induction l1 as [|a l1 IH]; simpl in S.
    + inversion S as [|? ? _ F]; subst. rewrite List.Forall_forall in F.
      now apply F.
    + inversion S; subst. now apply IH.
Qed.

Lemma find_None_iff {A} (f : A -> bool) (l : list A) :
  List.find f l = None <-> forall y, In y l -> f y = false.
Proof.
  split.
  - intros H y. now apply find_none.
  - intros H. destruct (List.find f l) as [x|] eqn:E; [|reflexivity].
    apply find_some in E as [I Fx]. rewrite (H x I) in Fx. discriminate.
Qed.

(** ** The first-name map and its two rules *)

Lemma by_first_loop_spec (names : list string) (d : gmap string (list string)) :
  exists d', by_first_loop d names = Ok d'
    /\ forall f, d' !! f = match sharing_first f names with
                           | [] => d !! f
                           | l => Some (dict_get d f [] ++ l)
                           end.
Proof.
  revert d. induction names as [|name names IH]; intros d; simpl.
  - exists d. auto.
  - unfold sharing_first, has_first, first_name. simpl.
    destruct (split name) as [|p parts] eqn:Sp.
    + exact (IH d).
    + simpl.
      destruct (IH (<[lower p := dict_get d (lower p) [] ++ [name]]> d))
        as (d' & E & L).
      exists d'. split; [exact E|]. intros f. rewrite (L f).
      unfold sharing_first, has_first, first_name.
      destruct (String.eqb_spec (lower p) f) as [<-|N].
      * rewrite dict_get_insert, String.eqb_refl, lookup_insert_eq.
        destruct (List.filter _ names); [reflexivity|].
        now rewrite <- app_assoc.
      * rewrite dict_get_insert, lookup_insert_ne by exact N.
        apply String.eqb_neq in N. rewrite N. reflexivity.
Qed.

Lemma by_first_loop_empty (names : list string) :
  exists d, by_first_loop ∅ names = Ok d /\ first_map_of names d.
Proof.
  destruct (by_first_loop_spec names ∅) as (d & E & L).
  exists d. split; [exact E|]. intros f. rewrite (L f).
  rewrite lookup_empty. unfold dict_get. rewrite lookup_empty. simpl.
  destruct (sharing_first f names); reflexivity.
Qed.

Lemma first_map_lookup (names : list string) d (t : string) (l : list string) :
  first_map_of names d -> d !! t = Some l ->
  l = sharing_first t names /\ l <> [].
Proof.
  intros M H. rewrite (M t) in H.
  destruct (sharing_first t names); [discriminate|].
  injection H as <-. split; [reflexivity|discriminate].
Qed.

Lemma first_map_miss (names : list string) d (t : string) :
  first_map_of names d -> d !! t = None -> sharing_first t names = [].
Proof.
  intros M H. rewrite (M t) in H.
  destruct (sharing_first t names); [reflexivity|discriminate].
Qed.

(** Rule 2a never fails, and answers from the map. *)
Lemma unique_first_loop_Ok (names : list string) d (tokens : list string) :
  first_map_of names d ->
  exists o, unique_first_loop d tokens = Ok o
    /\ (forall x, o = Some x ->
          exists t, In t tokens /\ sharing_first t names = [x])
    /\ (o = None ->
          forall t, In t tokens -> length (sharing_first t names) <> 1).
Proof.
  intros M. induction tokens as [|t tokens IH]; simpl.
  - exists None. split; [reflexivity|]. split; [discriminate|]. intros _ t [].
  - unfold dict_contains, dict_getitem.
    destruct (d !! t) as [l|] eqn:E.
    + simpl. destruct (first_map_lookup _ _ _ _ M E) as [-> NE].
      destruct (length (sharing_first t names) =? 1) eqn:L.
      * apply Nat.eqb_eq in L.
        destruct (sharing_first t names) as [|x [|? ?]] eqn:S;
          try discriminate.
        simpl. exists (Some x). split; [reflexivity|]. split.
        -- intros ? [= <-]. exists t. auto.
        -- discriminate.
      * apply Nat.eqb_neq in L.
        destruct IH as (o & Eo & Hs & Hn). exists o.
        split; [exact Eo|]. split.
        -- intros x Hx. destruct (Hs x Hx) as (t' & I & S). eauto.
        -- intros Ho t' [<-|I]; [exact L | now apply Hn].
    + destruct IH as (o & Eo & Hs & Hn). exists o.
      split; [exact Eo|]. split.
      * intros x Hx. destruct (Hs x Hx) as (t' & I & S). eauto.
      * intros Ho t' [<-|I]; [|now apply Hn].
        rewrite (first_map_miss _ _ _ M E). simpl. lia.
Qed.

Lemma candidates_loop_app (counts : gmap string nat) (l1 l2 : list string)
    (best : option string * nat) :
  candidates_loop counts (l1 ++ l2) best
  = candidates_loop counts l2 (candidates_loop counts l1 best).
Proof.
  revert best. induction l1 as [|c l1 IH]; intros best; simpl; [reflexivity|].
  destruct (snd best <? dict_get counts c 0); apply IH.
Qed.

(** Rule 2b never fails, and is one scan of all the candidates. *)
Lemma popularity_loop_Ok (names : list string) d (counts : gmap string nat)
    (tokens : list string) (best : option string * nat) :
  first_map_of names d ->
  popularity_loop d counts tokens best
  = Ok (candidates_loop counts (all_candidates names tokens) best).
Proof.
  intros M. revert best. induction tokens as [|t tokens IH]; intros best; simpl.
  - reflexivity.
  - rewrite candidates_loop_app. unfold dict_contains, dict_getitem.
    unfold ambiguous_for at 1.
    destruct (d !! t) as [l|] eqn:E.
    + simpl. destruct (first_map_lookup _ _ _ _ M E) as [-> NE].
      destruct (1 <? length (sharing_first t names)); simpl; apply IH.
    + rewrite (first_map_miss _ _ _ M E). simpl. apply IH.
Qed.

(** The scan keeps the first candidate of the highest score. *)
Lemma candidates_loop_max (counts : gmap string nat) (l : list string)
    (best_name : option string) (best_score : nat) :
  let score := fun c => dict_get counts c 0 in
  (candidates_loop counts l (best_name, best_score) = (best_name, best_score)
   /\ forall c, In c l -> score c <= best_score)
  \/ exists l1 c l2,
       l = l1 ++ c :: l2
       /\ candidates_loop counts l (best_name, best_score) = (Some c, score c)
       /\ best_score < score c
       /\ (forall c', In c' l1 -> score c' < score c)
       /\ (forall c', In c' l2 -> score c' <= score c).
Proof.
  intros score. revert best_name best_score.
  induction l as [|a l IH]; intros best_name best_score; simpl.
  - left. split; [reflexivity|]. intros c [].
  - fold (score a). destruct (best_score <? score a) eqn:L.
    + apply Nat.ltb_lt in L. right.
      destruct (IH (Some a) (score a))
        as [[E H]|(l1 & c & l2 & -> & E & Lc & H1 & H2)].
      * exists [], a, l. simpl. repeat split; auto. intros c' [].
      * exists (a :: l1), c, l2. simpl. repeat split; auto; [lia|].
        intros c' [<-|I]; [exact Lc | now apply H1].
    + apply Nat.ltb_ge in L.
      destruct (IH best_name best_score)
        as [[E H]|(l1 & c & l2 & -> & E & Lc & H1 & H2)].
      * left. split; [exact E|]. intros c [<-|I]; [exact L | now apply H].
      * right. exists (a :: l1), c, l2. simpl. repeat split; auto.
        intros c' [<-|I]; [lia | now apply H1].
Qed.

Lemma sharing_first_In (f : string) (names : list string) (x : string) :
  In x (sharing_first f names) -> In x names.
Proof. unfold sharing_first. intros H. now apply filter_In in H. Qed.

Lemma all_candidates_In (names tokens : list string) (x : string) :
  In x (all_candidates names tokens) -> In x names.
Proof.
  unfold all_candidates. intros H. apply in_flat_map in H as (t & _ & H).
  unfold ambiguous_for in H.
  destruct (1 <? length (sharing_first t names)); [|destruct H].
  now apply sharing_first_In in H.
Qed.

(** ** The strict resolver *)

Section Resolver.

Context {RT : Runtime}.

Lemma unique_names_In (messages : list MemberMessage) (n : string) :
  In n (unique_names messages) <->
  truthy n = true /\ exists m, In m messages /\ member_name m = Some n.
Proof. unfold unique_names. now rewrite set_iter_In, member_names_In. Qed.

Lemma unique_names_nonempty_filter (messages : list MemberMessage)
    (n : string) :
  In n (unique_names messages) -> filter_messages_for_member messages n <> [].
Proof.
  intros H. apply filter_messages_nonempty. unfold unique_names in H.
  exact (proj1 (set_iter_In _ _) H).
Qed.

(** The resolver, rule by rule. *)
Lemma find_member_cases (question : string) (messages : list MemberMessage) :
  messages <> [] ->
  let names := unique_names messages in
  let q_lower := lower question in
  let tokens := findall_alpha q_lower in
  match List.find (full_name_hit q_lower) (sorted_by_len_desc names) with
  | Some n => find_member_name_in_question question messages = Ok (Some n)
  | None =>
      exists d o,
        first_map_of names d /\ unique_first_loop d tokens = Ok o
        /\ match o with
           | Some x =>
               find_member_name_in_question question messages = Ok (Some x)
           | None =>
               let best := candidates_loop (count_messages messages)
                             (all_candidates names tokens) (None, 0) in
               find_member_name_in_question question messages
               = Ok (if truthy_opt (fst best) then fst best else None)
           end
  end.
Proof.
  intros NE names q_lower tokens. unfold find_member_name_in_question.
  destruct messages as [|m0 ms]; [congruence|].
  fold names q_lower tokens. rewrite full_name_loop_find.
  destruct (List.find _ _) as [n|]; [reflexivity|].
  destruct (by_first_loop_empty names) as (d & Ed & M).
  destruct (unique_first_loop_Ok names d tokens M) as (o & Eo & _).
  exists d, o. split; [exact M|]. split; [exact Eo|].
  rewrite Ed. simpl. rewrite Eo. simpl. destruct o as [x|]; [reflexivity|].
  rewrite (popularity_loop_Ok names d _ tokens _ M). simpl.
  destruct (truthy_opt _); reflexivity.
Qed.

(** The resolver never fails, and only ever names a member of the
    collection. *)
Lemma find_member_Ok (question : string) (messages : list MemberMessage) :
  exists o, find_member_name_in_question question messages = Ok o
    /\ forall n, o = Some n -> In n (unique_names messages).
Proof.
  destruct messages as [|m0 ms] eqn:Em.
  - exists None. split; [reflexivity|discriminate].
  - rewrite <- Em.
    assert (messages <> []) as NE by (subst; discriminate).
    pose proof (find_member_cases question messages NE) as C. simpl in C.
    destruct (List.find _ _) as [n|] eqn:F.
    + exists (Some n). split; [exact C|]. intros ? [= <-].
      apply find_some in F as [I _].
      exact (proj1 (sorted_by_len_desc_In _ _) I).
    + destruct C as (d & o & M & Eo & C).
      destruct (unique_first_loop_Ok _ d (findall_alpha (lower question)) M)
        as (o' & Eo' & Hs & _).
      rewrite Eo in Eo'. injection Eo' as <-.
      destruct o as [x|].
      * exists (Some x). split; [exact C|]. intros ? [= <-].
        destruct (Hs x eq_refl) as (t & _ & S).
        apply (sharing_first_In t). rewrite S. now left.
      * simpl in C.
        set (names := unique_names messages) in *.
        set (cands := all_candidates names _) in *.
        destruct (candidates_loop_max (count_messages messages) cands None 0)
          as [[E _]|(l1 & c & l2 & Ec & E & _)].
        -- rewrite E in C. simpl in C. exists None.
           split; [exact C|discriminate].
        -- rewrite E in C. simpl in C. destruct (truthy c).
           ++ exists (Some c). split; [exact C|]. intros ? [= <-].
              apply (all_candidates_In names (findall_alpha (lower question))).
              fold cands. rewrite Ec. apply in_app_iff. right. now left.
           ++ exists None. split; [exact C|discriminate].
Qed.

End Resolver.

(** ** The requested first name *)

(** A pattern that opens with [\b] and a group of one or more class
    characters captures a non-empty text of that class first. *)
Lemma leading_group (p : ascii -> bool) (lo : nat) (r : regex) prev s
    (e : position) (g : list string) :
  In (e, g) (rmatch (Seq WordB (Seq (Group (Rep p (S lo) None)) r)) prev s) ->
  exists u g', g = u :: g' /\ truthy u = true /\ all_chars p u = true.
Proof.
  intros H. apply rmatch_Seq_In in H as (p1 & s1 & g1 & g2 & H1 & H2 & ->).
  apply rmatch_WordB_In in H1 as (E & -> & _). injection E as -> ->.
  apply rmatch_Seq_In in H2 as (p2 & s2 & g3 & g4 & H2 & _ & ->).
  apply rmatch_Group_In in H2 as (g5 & H2 & ->).
  apply rmatch_Rep_In in H2 as [-> H2].
  apply rep_In in H2 as (u & E & _ & A & L & _). simpl in E.
  exists u, g4. rewrite E, consumed_app. simpl. repeat split; auto.
  destruct u; [simpl in L; lia | reflexivity].
Qed.

Lemma search_leading_group (p : ascii -> bool) (lo : nat) (r : regex)
    (s : string) (m : Match) :
  uniform r = true -> ngroups r = 0 ->
  re_search (Seq WordB (Seq (Group (Rep p (S lo) None)) r)) s = Some m ->
  exists u, group m 1 = Ok u /\ groups m = [u] /\ truthy u = true
            /\ all_chars p u = true.
Proof.
  intros U N H.
  assert (uniform (Seq WordB (Seq (Group (Rep p (S lo) None)) r)) = true)
    as U' by exact U.
  assert (length (groups m) = 1) as L.
  { rewrite (search_groups _ s m U' H). simpl. now rewrite N. }
  apply search_from_Some in H.
  destruct H as (pre & s1 & e & g & tl & _ & R & -> & _). simpl in *.
  assert (In (e, g) ((e, g) :: tl)) as I by now left.
  rewrite <- R in I. apply leading_group in I as (u & g' & -> & T & A).
  destruct g'; [|discriminate]. exists u. auto.
Qed.

Lemma capitalized_loop_Ok (i : nat) (tokens : list string) :
  exists o, capitalized_loop i tokens = Ok o
    /\ forall r, o = Some r -> truthy r = true.
Proof.
  revert i. induction tokens as [|tok tokens IH]; intros i; simpl.
  - exists None. split; [reflexivity|discriminate].
  - destruct (i =? 0); [apply IH|].
    destruct tok as [|c tok]; simpl; [apply IH|].
    destruct (is_upper c); [|apply IH].
    destruct (is_word c); simpl.
    + eexists. split; [reflexivity|]. intros ? [= <-]. reflexivity.
    + destruct (keep_word_chars tok) eqn:K; simpl; [apply IH|].
      eexists. split; [reflexivity|]. intros ? [= <-]. reflexivity.
Qed.

(** Extraction never fails, and a name it yields is never empty. *)
Lemma extract_requested_first_name_Ok (question : string) :
  exists o, extract_requested_first_name question = Ok o
    /\ forall r, o = Some r -> truthy r = true.
Proof.
  unfold extract_requested_first_name.
  destruct (re_search POSSESSIVE_PATTERN question) as [m|] eqn:S.
  - apply search_leading_group in S as (u & G & _ & T & _);
      [|reflexivity|reflexivity].
    rewrite G. simpl. exists (Some u). split; [reflexivity|].
    now intros ? [= <-].
  - apply capitalized_loop_Ok.
Qed.

(** ** The fuzzy suggestion *)

Section Suggestion.

Context {RT : Runtime}.

Lemma Qlt_bool_iff (x y : Q) : Qlt_bool x y = true <-> (x < y)%Q.
Proof.
  unfold Qlt_bool. rewrite negb_true_iff. split.
  - intros H. apply Qnot_le_lt. intros L.
    apply Qle_bool_iff in L. congruence.
  - intros H. destruct (Qle_bool y x) eqn:E; [|reflexivity].
    apply Qle_bool_iff in E. exfalso. exact (Qlt_not_le _ _ H E).
Qed.

(** The scan never fails and keeps the first name of the highest ratio. *)
Lemma suggest_loop_max (requested : string) (names : list string)
    (best_name : option string) (best_ratio : Q) :
  let sim := similarity ratio requested in
  (suggest_loop requested names (best_name, best_ratio)
     = Ok (best_name, best_ratio)
   /\ forall c r, In c names -> sim c = Some r -> (r <= best_ratio)%Q)
  \/ exists l1 c l2 r,
       names = l1 ++ c :: l2 /\ sim c = Some r
       /\ suggest_loop requested names (best_name, best_ratio)
          = Ok (Some c, r)
       /\ (best_ratio < r)%Q
       /\ (forall c' r', In c' l1 -> sim c' = Some r' -> (r' < r)%Q)
       /\ (forall c' r', In c' l2 -> sim c' = Some r' -> (r' <= r)%Q).
Proof.
  intros sim. revert best_name best_ratio.
  induction names as [|a names IH]; intros best_name best_ratio; simpl.
  - left. split; [reflexivity|]. intros c r [].
  - assert (Sa : sim a = match split a with
                         | [] => None
                         | p :: _ => Some (ratio requested (lower p))
                         end).
    { unfold sim, similarity, first_name. destruct (split a); reflexivity. }
    destruct (split a) as [|p parts] eqn:Sp.
    + destruct (IH best_name best_ratio)
        as [[E H]|(l1 & c & l2 & r & -> & Sc & E & Lc & H1 & H2)].
      * left. split; [exact E|]. intros c r [<-|I] Hs; [congruence|eauto].
      * right. exists (a :: l1), c, l2, r. simpl. repeat split; auto.
        intros c' r' [<-|I] Hs; [congruence|eauto].
    + simpl. set (ra := ratio requested (lower p)) in *.
      destruct (Qlt_bool best_ratio ra) eqn:L.
      * apply Qlt_bool_iff in L. right.
        destruct (IH (Some a) ra)
          as [[E H]|(l1 & c & l2 & r & -> & Sc & E & Lc & H1 & H2)].
        -- exists [], a, names, ra. simpl. repeat split; auto.
           intros c' r' [].
        -- exists (a :: l1), c, l2, r. simpl. repeat split; auto.
           ++ eapply Qlt_trans; eauto.
           ++ intros c' r' [<-|I] Hs; [|eauto].
              rewrite Sa in Hs. injection Hs as <-. exact Lc.
      * assert (ra <= best_ratio)%Q as L'.
        { apply Qnot_lt_le. intros C. apply Qlt_bool_iff in C. congruence. }
        destruct (IH best_name best_ratio)
          as [[E H]|(l1 & c & l2 & r & -> & Sc & E & Lc & H1 & H2)].
        -- left. split; [exact E|]. intros c r [<-|I] Hs; [|eauto].
           rewrite Sa in Hs. injection Hs as <-. exact L'.
        -- right. exists (a :: l1), c, l2, r. simpl. repeat split; auto.
           intros c' r' [<-|I] Hs; [|eauto].
           rewrite Sa in Hs. injection Hs as <-.
           eapply Qle_lt_trans; eauto.
Qed.

(** The suggestion never fails; it is a member of the collection whose
    ratio reaches the threshold and is the highest of all, and there is
    none exactly when every ratio is below a positive threshold. *)
Lemma suggest_Ok (requested_first_name : string)
    (messages : list MemberMessage) (min_similarity : Q) :
  (0 < min_similarity)%Q ->
  let sim := similarity ratio (lower requested_first_name) in
  exists o,
    suggest_similar_member_by_first_name requested_first_name messages
      min_similarity = Ok o
    /\ match o with
       | Some n =>
           In n (unique_names messages)
           /\ exists r, sim n = Some r /\ (min_similarity <= r)%Q
                /\ forall c r', In c (unique_names messages) ->
                     sim c = Some r' -> (r' <= r)%Q
       | None =>
           forall c r', In c (unique_names messages) ->
             sim c = Some r' -> (r' < min_similarity)%Q
       end.
Proof.
  intros Pos sim. unfold suggest_similar_member_by_first_name.
  destruct (suggest_loop_max (lower requested_first_name)
              (unique_names messages) None 0%Q)
    as [[E H]|(l1 & c & l2 & r & En & Sc & E & Lc & H1 & H2)];
    rewrite E; simpl.
  - exists None. split; [reflexivity|]. intros c r' I Hs.
    eapply Qle_lt_trans; [|exact Pos]. eapply H; eauto.
  - assert (In c (unique_names messages)) as Ic.
    { rewrite En. apply in_app_iff. right. now left. }
    assert (truthy c = true) as Tc by now apply unique_names_In in Ic.
    assert (forall c' r', In c' (unique_names messages) ->
              sim c' = Some r' -> (r' <= r)%Q) as Max.
    { intros c' r' I Hs. rewrite En in I.
      apply in_app_iff in I as [I|[<-|I]].
      - apply Qlt_le_weak. eauto.
      - fold sim in Sc. rewrite Sc in Hs. injection Hs as <-. apply Qle_refl.
      - eauto. }
    rewrite Tc. simpl. destruct (Qle_bool min_similarity r) eqn:Q.
    + apply Qle_bool_iff in Q. exists (Some c). split; [reflexivity|]. eauto.
    + exists None. split; [reflexivity|]. intros c' r' I Hs.
      eapply Qle_lt_trans; [eapply Max; eauto|].
      apply Qnot_le_lt. intros C. apply Qle_bool_iff in C. congruence.
Qed.

End Suggestion.

(** ** What a match reads *)

Lemma rmatch_reads (r : regex) prev s (e : position) (g : list string) :
  In (e, g) (rmatch r prev s) ->
  exists u, s = u +:+ snd e /\ fst e = last_char prev u
            /\ min_len r <= String.length u.
Proof.
  revert prev s e g.
  induction r as [|p|r1 IH1 r2 IH2|r1 IH1 r2 IH2|r1 IH1|p lo hi| |r1 IH1];
    intros prev s e g H.
  - apply rmatch_Eps_In in H as [-> _]. exists "". simpl. auto.
  - apply rmatch_Chr_In in H as (c & -> & F & _ & _).
    exists (String c ""). simpl. auto.
  - apply rmatch_Seq_In in H as (p1 & s1 & g1 & g2 & H1 & H2 & _).
    apply IH1 in H1 as (u1 & -> & F1 & L1).
    apply IH2 in H2 as (u2 & E2 & F2 & L2). simpl in *. subst p1 s1.
    exists (u1 +:+ u2). rewrite sapp_assoc, last_char_app, slength_app.
    repeat split; auto. lia.
  - simpl in H. apply in_app_iff in H as [H|H].
    + apply IH1 in H as (u & E & F & L). exists u. simpl.
      repeat split; auto. lia.
    + apply IH2 in H as (u & E & F & L). exists u. simpl.
      repeat split; auto. lia.
  - simpl in H. apply in_app_iff in H as [H|[H|[]]].
    + apply IH1 in H as (u & E & F & L). exists u. simpl.
      repeat split; auto. lia.
    + injection H as <- _. exists "". simpl. auto.
  - apply rmatch_Rep_In in H as [_ H].
    apply rep_In in H as (u & E & F & _ & L & _). exists u. auto.
  - apply rmatch_WordB_In in H as (-> & _ & _). exists "". simpl. auto.
  - apply rmatch_Group_In in H as (g' & H & _). now apply IH1 in H.
Qed.

(** A match of a pattern that must read something is not empty. *)
Lemma search_group0_truthy (r : regex) (s : string) (m : Match) :
  0 < min_len r -> re_search r s = Some m -> truthy (group0 m) = true.
Proof.
  intros P H. apply search_from_Some in H.
  destruct H as (pre & s1 & e & g & tl & _ & R & -> & _). simpl.
  assert (In (e, g) (rmatch r (last_char None pre) s1)) as I
    by (rewrite R; now left).
  apply rmatch_reads in I as (u & -> & _ & L). rewrite consumed_app.
  destruct u; [simpl in L; lia | reflexivity].
Qed.

Lemma extract_date_phrase_truthy (t d : string) :
  extract_date_phrase t = Some d -> truthy d = true.
Proof.
  unfold extract_date_phrase.
  destruct (re_search MONTH_PATTERN t) as [m|] eqn:M.
  - intros [= <-]. eapply search_group0_truthy; [|exact M]. vm_compute; lia.
  - destruct (re_search DATE_SLASH_PATTERN t) as [m|] eqn:D; [|discriminate].
    intros [= <-]. eapply search_group0_truthy; [|exact D]. vm_compute; lia.
Qed.

(** ** The extractors *)

Section Extractors.

Context {RT : Runtime}.

(** Extraction never fails: a count that cannot be converted is no count. *)
Lemma extract_car_count_cases (t : string) :
  match re_search CAR_COUNT_PATTERN (lower t) with
  | Some m =>
      exists u, groups m = [u] /\ truthy u = true
        /\ all_chars is_digit u = true
        /\ extract_car_count_from_text t
           = Ok (if within_cap int_max_str_digits u
                 then Some (int_loop 0 u) else None)
  | None => extract_car_count_from_text t = Ok None
  end.
Proof.
  unfold extract_car_count_from_text.
  destruct (re_search CAR_COUNT_PATTERN (lower t)) as [m|] eqn:S;
    [|reflexivity].
  apply search_leading_group in S as (u & G & Gs & T & A);
    [|reflexivity|reflexivity].
  exists u. repeat split; auto. rewrite G. simpl. unfold py_int, within_cap.
  rewrite T, A. simpl. destruct (_ || _); reflexivity.
Qed.

(** A single digit passes any cap. *)
Lemma one_digit_within_cap (u : string) :
  String.length u <= 1 -> within_cap int_max_str_digits u = true.
Proof.
  intros L. unfold within_cap. destruct int_max_str_digits as [|cap]; simpl.
  - reflexivity.
  - apply Nat.leb_le. lia.
Qed.

Lemma extract_car_count_one_digit (t d : string) :
  option_map groups (re_search CAR_COUNT_PATTERN (lower t)) = Some [d] ->
  String.length d <= 1 ->
  extract_car_count_from_text t = Ok (Some (int_loop 0 d)).
Proof.
  intros S L. pose proof (extract_car_count_cases t) as C.
  destruct (re_search CAR_COUNT_PATTERN (lower t)) as [m|]; [|discriminate].
  destruct C as (u & Gs & _ & _ & E). simpl in S. rewrite Gs in S.
  injection S as ->. rewrite E. now rewrite one_digit_within_cap.
Qed.

Lemma extract_car_count_Ok (t : string) :
  exists o, extract_car_count_from_text t = Ok o.
Proof.
  pose proof (extract_car_count_cases t) as C.
  destruct (re_search _ _); [destruct C as (u & _ & _ & _ & E)|]; eauto.
Qed.

Lemma car_count_loop_found (name : string) (skipped : list MemberMessage)
    (m : MemberMessage) (rest : list MemberMessage) (n : Z) :
  (forall m', In m' skipped ->
     extract_car_count_from_text (text m') = Ok None) ->
  extract_car_count_from_text (text m) = Ok (Some n) ->
  car_count_loop name (skipped ++ m :: rest)
  = Ok (car_count_found name n).
Proof.
  intros Hs Hm. induction skipped as [|a skipped IH]; simpl.
  - now rewrite Hm.
  - rewrite (Hs a (or_introl eq_refl)). simpl. apply IH.
    intros m' I. apply Hs. now right.
Qed.

Lemma car_count_loop_none (name : string) (l : list MemberMessage) :
  (forall m', In m' l ->
     extract_car_count_from_text (text m') = Ok None) ->
  car_count_loop name l = Ok (car_count_not_found name).
Proof.
  intros H. induction l as [|a l IH]; simpl; [reflexivity|].
  rewrite (H a (or_introl eq_refl)). simpl. apply IH.
  intros m' I. apply H. now right.
Qed.

Lemma car_count_loop_Ok (name : string) (l : list MemberMessage) :
  exists s, car_count_loop name l = Ok s.
Proof.
  induction l as [|a l IH]; simpl; [eauto|].
  destruct (extract_car_count_Ok (text a)) as ([n|] & E); rewrite E; simpl;
    eauto.
Qed.

Lemma extract_destination_Ok (question : string) :
  exists o, extract_destination_from_question question = Ok o
    /\ (re_search TRIP_TO_PATTERN question = None -> o = None).
Proof.
  unfold extract_destination_from_question.
  destruct (re_search TRIP_TO_PATTERN question) as [m|] eqn:S.
  - pose proof (search_groups TRIP_TO_PATTERN _ _ eq_refl S) as L.
    apply group_1_Ok in L as (g & _ & G). rewrite G. simpl.
    eexists. split; [reflexivity|discriminate].
  - exists None. auto.
Qed.

(** Both trip branches answer from the last candidate message. *)
Lemma answer_trip_any_cases (name : string) (messages : list MemberMessage) :
  match List.filter (mentions "trip") messages with
  | [] => answer_trip_any name messages = Ok (trip_details_not_found name)
  | c :: cs =>
      exists older latest,
        c :: cs = older ++ [latest]
        /\ answer_trip_any name messages
           = Ok (match extract_date_phrase (text latest) with
                 | Some d => trip_around name d
                 | None => text latest
                 end)
  end.
Proof.
  unfold answer_trip_any.
  destruct (List.filter (mentions "trip") messages) as [|c cs]; [reflexivity|].
  destruct (list_last_cons c cs) as (older & latest & E & L).
  exists older, latest. split; [exact E|]. rewrite L. simpl.
  destruct (extract_date_phrase (text latest)) as [d|] eqn:D; [|reflexivity].
  now rewrite (extract_date_phrase_truthy _ _ D).
Qed.

Lemma answer_trip_to_cases (name destination : string)
    (messages : list MemberMessage) :
  match List.filter (mentions (lower destination)) messages with
  | [] => answer_trip_to name destination messages
          = Ok (trip_to_not_found name destination)
  | c :: cs =>
      exists older latest,
        c :: cs = older ++ [latest]
        /\ answer_trip_to name destination messages
           = Ok (match extract_date_phrase (text latest) with
                 | Some d => trip_to_around name destination d
                 | None => text latest
                 end)
  end.
Proof.
  unfold answer_trip_to.
  destruct (List.filter (mentions (lower destination)) messages) as [|c cs];
    [reflexivity|].
  destruct (list_last_cons c cs) as (older & latest & E & L).
  exists older, latest. split; [exact E|]. rewrite L. simpl.
  destruct (extract_date_phrase (text latest)) as [d|] eqn:D; [|reflexivity].
  now rewrite (extract_date_phrase_truthy _ _ D).
Qed.

Lemma answer_trip_when_Ok (question name : string)
    (messages : list MemberMessage) :
  exists s, answer_trip_when question name messages = Ok s.
Proof.
  unfold answer_trip_when.
  destruct (extract_destination_Ok question) as (o & E & _). rewrite E. simpl.
  assert (exists s, answer_trip_any name messages = Ok s) as Any.
  { pose proof (answer_trip_any_cases name messages) as C.
    destruct (List.filter _ _); [|destruct C as (? & ? & _ & C)]; eauto. }
  destruct o as [d|]; [|exact Any]. destruct (truthy d); simpl; [|exact Any].
  pose proof (answer_trip_to_cases name d messages) as C.
  destruct (List.filter _ _); [|destruct C as (? & ? & _ & C)]; eauto.
Qed.

Lemma answer_favorite_restaurants_Ok (name : string)
    (messages : list MemberMessage) :
  exists s, answer_favorite_restaurants name messages = Ok s.
Proof.
  unfold answer_favorite_restaurants.
  destruct (map text (List.filter about_favorite_restaurants messages))
    as [|c [|c' cs]]; simpl; eauto.
Qed.

(** Every extractor answers for a member who has messages. *)
Lemma core_answer_for_Ok (qtype : question_type) (question name : string)
    (member_msgs : list MemberMessage) :
  member_msgs <> [] ->
  exists core,
    core_answer_for qtype question name member_msgs
    = Ok core.
Proof.
  intros NE. destruct qtype; simpl.
  - apply car_count_loop_Ok.
  - apply answer_trip_when_Ok.
  - apply answer_favorite_restaurants_Ok.
  - destruct member_msgs as [|c cs]; [congruence|].
    destruct (list_last_cons c cs) as (older & latest & _ & L).
    rewrite L. simpl. eauto.
Qed.

End Extractors.

(** ** The main function *)

Section Orchestrator.

Context {RT : Runtime}.

Local Abbreviation answer := (answer_question_baseline).
Local Abbreviation suggest requested messages :=
  (suggest_similar_member_by_first_name requested messages (4 # 5)).
Local Abbreviation core_answer question name messages :=
  (core_answer_for (detect_question_type question)
     question name (filter_messages_for_member messages name)).

(** The main function, step by step, for a collection that is not empty. *)
Lemma answer_cases (question : string) (messages : list MemberMessage) :
  messages <> [] ->
  exists strict requested suggested,
    find_member_name_in_question question messages = Ok strict
    /\ extract_requested_first_name question = Ok requested
    /\ match strict, requested with
       | None, Some r => suggest r messages = Ok suggested
       | _, _ => suggested = None
       end
    /\ match suggested with
       | Some name =>
           In name (unique_names messages)
           /\ exists core,
                core_answer question name messages = Ok core
                /\ answer question messages
                   = Ok (clarification requested suggested core)
       | None =>
           match strict with
           | Some name =>
               In name (unique_names messages)
               /\ exists core,
                    core_answer question name messages = Ok core
                    /\ answer question messages = Ok core
           | None => answer question messages = Ok CANNOT_IDENTIFY
           end
       end.
Proof.
  intros NE.
  destruct (find_member_Ok question messages) as (strict & Es & Hs).
  destruct (extract_requested_first_name_Ok question) as (requested & Er & Hr).
  assert (Resolved : forall name suggested,
    In name (unique_names messages) ->
    (if truthy_opt suggested then suggested else strict) = Some name ->
    exists core,
      core_answer question name messages = Ok core
      /\ (match (if truthy_opt suggested then suggested else strict) with
          | None => Ok CANNOT_IDENTIFY
          | Some name =>
              if negb (truthy name) then Ok CANNOT_IDENTIFY
              else
                match filter_messages_for_member messages name with
                | [] => Ok (no_messages_for name)
                | _ :: _ =>
                    core ← core_answer question name messages;
                    if truthy_opt suggested && truthy_opt requested
                    then Ok (clarification requested suggested core)
                    else Ok core
                end
          end)
         = Ok (if truthy_opt suggested && truthy_opt requested
               then clarification requested suggested core else core)).
  { intros name suggested I ->.
    pose proof (unique_names_nonempty_filter _ _ I) as F.
    apply unique_names_In in I as [T _]. rewrite T. simpl.
    destruct (core_answer_for_Ok
                (detect_question_type question) question name _ F)
      as (core & Ec).
    exists core. split; [exact Ec|].
    destruct (filter_messages_for_member messages name); [congruence|].
    rewrite Ec. simpl. destruct (_ && _); reflexivity. }
  assert (Main : forall suggested,
    match requested with
    | Some r =>
        if negb (truthy_opt strict) && truthy r
        then suggest r messages else Ok None
    | None => Ok None
    end = Ok suggested ->
    answer question messages
    = match (if truthy_opt suggested then suggested else strict) with
      | None => Ok CANNOT_IDENTIFY
      | Some name =>
          if negb (truthy name) then Ok CANNOT_IDENTIFY
          else
            match filter_messages_for_member messages name with
            | [] => Ok (no_messages_for name)
            | _ :: _ =>
                core ← core_answer question name messages;
                if truthy_opt suggested && truthy_opt requested
                then Ok (clarification requested suggested core)
                else Ok core
            end
      end).
  { intros suggested E. unfold answer_question_baseline.
    destruct messages as [|m0 ms]; [congruence|].
    rewrite Es. simpl. rewrite Er. simpl. rewrite E. reflexivity. }
  exists strict, requested.
  destruct strict as [n|].
  - (* strict resolution succeeded *)
    exists None. split; [exact Es|]. split; [exact Er|]. split; [reflexivity|].
    pose proof (Hs n eq_refl) as I. split; [exact I|].
    assert (truthy n = true) as T by now apply unique_names_In in I.
    destruct (Resolved n None I eq_refl) as (core & Ec & R).
    exists core. split; [exact Ec|]. rewrite (Main None).
    + simpl in *. exact R.
    + simpl. rewrite T. simpl. destruct requested; reflexivity.
  - destruct requested as [r|].
    + (* a requested first name: try the suggestion *)
      pose proof (Hr r eq_refl) as T.
      destruct (suggest_Ok r messages (4 # 5) ltac:(reflexivity))
        as (suggested & Eg & Hg).
      exists suggested. split; [exact Es|]. split; [exact Er|].
      split; [exact Eg|]. destruct suggested as [s|].
      * destruct Hg as [I _]. split; [exact I|].
        assert (truthy s = true) as Ts by now apply unique_names_In in I.
        destruct (Resolved s (Some s) I) as (core & Ec & R).
        { simpl. now rewrite Ts. }
        exists core. split; [exact Ec|]. rewrite (Main (Some s)).
        -- rewrite R. simpl. now rewrite Ts, T.
        -- simpl. rewrite T. exact Eg.
      * rewrite (Main None); [reflexivity|]. simpl. rewrite T. exact Eg.
    + exists None. split; [exact Es|]. split; [exact Er|].
      split; [reflexivity|]. now rewrite (Main None).
Qed.

End Orchestrator.

Section PopularityRule.

Context {RT : Runtime}.

Lemma no_full_name_hit (question : string) (messages : list MemberMessage) :
  (forall n, In n (unique_names messages) ->
     contains (lower n) (lower question) = false) ->
  List.find (full_name_hit (lower question))
    (sorted_by_len_desc (unique_names messages)) = None.
Proof.
  intros H. apply find_None_iff. intros y I.
  apply (proj1 (sorted_by_len_desc_In _ _)) in I. unfold full_name_hit.
  rewrite (H y I). apply andb_false_r.
Qed.

(** The popularity rule, when the two rules before it find nothing. *)
Lemma popularity_rule_general (question : string)
    (messages : list MemberMessage) :
  let names := unique_names messages in
  let tokens := findall_alpha (lower question) in
  (forall n, In n names -> contains (lower n) (lower question) = false) ->
  (forall t, In t tokens -> length (sharing_first t names) <> 1) ->
  (exists t, In t tokens /\ 1 < length (sharing_first t names)) ->
  exists c before after,
    find_member_name_in_question question messages = Ok (Some c)
    /\ all_candidates names tokens = before ++ c :: after
    /\ (forall c', In c' before ->
          message_count messages c' < message_count messages c)
    /\ (forall c', In c' after ->
          message_count messages c' <= message_count messages c).
Proof.
  intros names tokens NoFull NoUnique (t & It & Lt).
  assert (messages <> []) as NE.
  { intros ->. unfold names, unique_names in Lt. simpl in Lt.
    destruct (sharing_first t (set_iter [])) as [|x l] eqn:S;
      [simpl in Lt; lia|].
    assert (In x (set_iter [])) as I.
    { apply (sharing_first_In t). rewrite S. now left. }
    apply (proj1 (set_iter_In _ _)) in I. destruct I. }
  pose proof (find_member_cases question messages NE) as C. simpl in C.
  rewrite (no_full_name_hit _ _ NoFull) in C.
  destruct C as (d & o & M & Eo & C). fold names tokens in M, Eo, C.
  destruct (unique_first_loop_Ok names d tokens M) as (o' & Eo' & Hs & _).
  rewrite Eo in Eo'. injection Eo' as <-.
  destruct o as [x|].
  { destruct (Hs x eq_refl) as (t' & It' & S).
    exfalso. apply (NoUnique t' It'). now rewrite S. }
  assert (Score : forall c, In c (all_candidates names tokens) ->
            dict_get (count_messages messages) c 0 = message_count messages c
            /\ 0 < message_count messages c /\ truthy c = true).
  { intros c I. apply all_candidates_In in I. pose proof I as I'.
    apply unique_names_In in I' as [T _]. split; [|split; [|exact T]].
    - now apply count_messages_spec.
    - apply message_count_pos. unfold names, unique_names in I.
      exact (proj1 (set_iter_In _ _) I). }
  destruct (candidates_loop_max (count_messages messages)
              (all_candidates names tokens) None 0)
    as [[_ H]|(l1 & c & l2 & Ec & E & _ & H1 & H2)].
  - exfalso.
    assert (exists c, In c (all_candidates names tokens)) as (c & I).
    { destruct (sharing_first t names) as [|c l] eqn:S; [simpl in Lt; lia|].
      exists c. unfold all_candidates. apply in_flat_map. exists t.
      split; [exact It|]. unfold ambiguous_for. rewrite S.
      apply Nat.ltb_lt in Lt. rewrite Lt. now left. }
    destruct (Score c I) as (Sc & P & _). specialize (H c I). simpl in H. lia.
  - assert (In c (all_candidates names tokens)) as Ic.
    { rewrite Ec. apply in_app_iff. right. now left. }
    destruct (Score c Ic) as (Sc & _ & Tc).
    rewrite E in C. simpl in C. rewrite Tc in C.
    exists c, l1, l2. split; [exact C|]. split; [exact Ec|]. split.
    + intros c' I. specialize (H1 c' I). simpl in H1.
      assert (In c' (all_candidates names tokens)) as Ic'.
      { rewrite Ec. apply in_app_iff. now left. }
      destruct (Score c' Ic') as (Sc' & _). lia.
    + intros c' I. specialize (H2 c' I). simpl in H2.
      assert (In c' (all_candidates names tokens)) as Ic'.
      { rewrite Ec. apply in_app_iff. right. now right. }
      destruct (Score c' Ic') as (Sc' & _). lia.
Qed.

End PopularityRule.

Lemma two_names_cases (l : list string) (p q : string) :
  List.NoDup l -> (forall x, In x l -> x = p \/ x = q) ->
  l = [] \/ l = [p] \/ l = [q] \/ l = [p; q] \/ l = [q; p].
Proof.
  intros N H. destruct l as [|x [|y [|z l]]].
  - auto.
  - destruct (H x (or_introl eq_refl)) as [->| ->]; auto.
  - inversion N as [|? ? Nx _]; subst.
    assert (x <> y) as D by (intros ->; apply Nx; now left).
    destruct (H x (or_introl eq_refl)) as [->| ->];
      destruct (H y (or_intror (or_introl eq_refl))) as [->| ->];
      auto; congruence.
  - exfalso. inversion N as [|? ? Nx N']; subst.
    inversion N' as [|? ? Ny _]; subst.
    assert (x <> y) as D1 by (intros ->; apply Nx; now left).
    assert (x <> z) as D2 by (intros ->; apply Nx; right; now left).
    assert (y <> z) as D3 by (intros ->; apply Ny; now left).
    destruct (H x (or_introl eq_refl)) as [->| ->];
      destruct (H y (or_intror (or_introl eq_refl))) as [->| ->];
      destruct (H z (or_intror (or_intror (or_introl eq_refl)))) as [->| ->];
      congruence.
Qed.

Section TwoLaylas.

Context {RT : Runtime}.

(** With no other member than the two Laylas, "Layla" is the one who wrote
    more. *)
Lemma layla_resolves_to_the_busier (messages : list MemberMessage)
    (a b : string) :
  (a = "Layla Smith" /\ b = "Layla Jones")
  \/ (a = "Layla Jones" /\ b = "Layla Smith") ->
  (forall m, In m messages ->
     member_name m = Some "Layla Smith"
     \/ member_name m = Some "Layla Jones") ->
  message_count messages b < message_count messages a ->
  find_member_name_in_question "Layla" messages = Ok (Some a).
Proof.
  intros Hab Hm Hc.
  assert (forall x, In x (unique_names messages) ->
            x = "Layla Smith" \/ x = "Layla Jones") as Only.
  { intros x I. apply unique_names_In in I as (_ & m & Im & E).
    destruct (Hm m Im) as [E'|E']; rewrite E' in E; injection E as <-; auto. }
  assert (In a (unique_names messages)) as Ia.
  { apply unique_names_In.
    assert (filter_messages_for_member messages a <> []) as F.
    { unfold message_count in Hc.
      destruct (filter_messages_for_member messages a);
        [simpl in Hc; lia | discriminate]. }
    destruct (filter_messages_for_member messages a) as [|m ms] eqn:E;
      [congruence|].
    assert (In m (filter_messages_for_member messages a)) as I
      by (rewrite E; now left).
    apply filter_In in I as [Im Nm]. apply name_is_true in Nm.
    split; [|eauto]. destruct Hab as [[-> _]|[-> _]]; reflexivity. }
  assert (messages <> []) as NE.
  { intros ->. apply unique_names_In in Ia as (_ & m & [] & _). }
  pose proof (set_iter_NoDup (member_names messages)) as ND.
  fold (unique_names messages) in ND.
  destruct (two_names_cases _ _ _ ND Only) as [E|[E|[E|[E|E]]]].
  - rewrite E in Ia. destruct Ia.
  - (* only Layla Smith: the unique first-name rule *)
    rewrite E in Ia. destruct Ia as [<-|[]].
    pose proof (find_member_cases "Layla" messages NE) as C.
    cbv zeta in C. rewrite E in C.
    change (List.find _ _) with (@None string) in C.
    destruct C as (d & o & M & Eo & C).
    destruct (unique_first_loop_Ok _ d (findall_alpha (lower "Layla")) M)
      as (o' & Eo' & Hs & Hn).
    rewrite Eo in Eo'. injection Eo' as <-. destruct o as [x|].
    + destruct (Hs x eq_refl) as (t & It & S). vm_compute in It.
      destruct It as [<-|[]]. vm_compute in S. injection S as <-. exact C.
    + exfalso. apply (Hn eq_refl "layla"); [now left | reflexivity].
  - rewrite E in Ia. destruct Ia as [<-|[]].
    pose proof (find_member_cases "Layla" messages NE) as C.
    cbv zeta in C. rewrite E in C.
    change (List.find _ _) with (@None string) in C.
    destruct C as (d & o & M & Eo & C).
    destruct (unique_first_loop_Ok _ d (findall_alpha (lower "Layla")) M)
      as (o' & Eo' & Hs & Hn).
    rewrite Eo in Eo'. injection Eo' as <-. destruct o as [x|].
    + destruct (Hs x eq_refl) as (t & It & S). vm_compute in It.
      destruct It as [<-|[]]. vm_compute in S. injection S as <-. exact C.
    + exfalso. apply (Hn eq_refl "layla"); [now left | reflexivity].
  - (* both: the popularity rule *)
    pose proof (popularity_rule_general "Layla" messages) as G.
    cbv zeta in G. rewrite E in G.
    destruct G as (c & before & after & Ef & Ec & Hb & Ha).
    + intros n [<-|[<-|[]]]; reflexivity.
    + intros t [<-|[]]. vm_compute. lia.
    + exists "layla". split; [now left | vm_compute; lia].
    + rewrite Ef. f_equal. f_equal.
      change (all_candidates _ _) with ["Layla Smith"; "Layla Jones"] in Ec.
      destruct before as [|x [|y before]]; simpl in Ec.
      * injection Ec as <- <-.
        destruct Hab as [[-> ->]|[-> ->]]; [reflexivity|].
        specialize (Ha "Layla Jones" (or_introl eq_refl)). lia.
      * injection Ec as <- <- <-.
        destruct Hab as [[-> ->]|[-> ->]]; [|reflexivity].
        specialize (Hb "Layla Smith" (or_introl eq_refl)). lia.
      * injection Ec as _ _ Ec. destruct before; discriminate.
  - pose proof (popularity_rule_general "Layla" messages) as G.
    cbv zeta in G. rewrite E in G.
    destruct G as (c & before & after & Ef & Ec & Hb & Ha).
    + intros n [<-|[<-|[]]]; reflexivity.
    + intros t [<-|[]]. vm_compute. lia.
    + exists "layla". split; [now left | vm_compute; lia].
    + rewrite Ef. f_equal. f_equal.
      change (all_candidates _ _) with ["Layla Jones"; "Layla Smith"] in Ec.
      destruct before as [|x [|y before]]; simpl in Ec.
      * injection Ec as <- <-.
        destruct Hab as [[-> ->]|[-> ->]]; [|reflexivity].
        specialize (Ha "Layla Smith" (or_introl eq_refl)). lia.
      * injection Ec as <- <- <-.
        destruct Hab as [[-> ->]|[-> ->]]; [reflexivity|].
        specialize (Hb "Layla Jones" (or_introl eq_refl)). lia.
      * injection Ec as _ _ Ec. destruct before; discriminate.
Qed.

End TwoLaylas.

(** ** The car-count pattern *)

Lemma digit_is_word (c : ascii) : is_digit c = true -> is_word c = true.
Proof. unfold is_word. intros ->. now rewrite orb_true_r. Qed.

Lemma space_not_digit (c : ascii) : is_space c = true -> is_digit c = false.
Proof.
  destruct c as [[] [] [] [] [] [] [] []]; vm_compute; congruence.
Qed.

Lemma run_unique (p : ascii -> bool) (u1 r1 u2 r2 : string) :
  u1 +:+ r1 = u2 +:+ r2 ->
  all_chars p u1 = true -> all_chars p u2 = true ->
  starts_outside p r1 -> starts_outside p r2 ->
  u1 = u2 /\ r1 = r2.
Proof.
  revert u2. induction u1 as [|c u1 IH]; intros [|c' u2] E A1 A2 O1 O2;
    simpl in *.
  - auto.
  - subst r1. simpl in O1. apply andb_true_iff in A2 as [P _]. congruence.
  - subst r2. simpl in O2. apply andb_true_iff in A1 as [P _]. congruence.
  - injection E as <- E. apply andb_true_iff in A1 as [_ A1].
    apply andb_true_iff in A2 as [_ A2].
    destruct (IH u2 E A1 A2 O1 O2) as [-> ->]. auto.
Qed.

(** The matches of [\b(\d+)] followed by a pattern [r]. *)
Lemma digits_then_In (r : regex) prev s (e : position) (g : list string) :
  In (e, g) (rmatch (Seq WordB (Seq (Group (Rep is_digit 1 None)) r)) prev s)
  <->
  exists ds rest g',
    s = ds +:+ rest /\ truthy ds = true /\ all_chars is_digit ds = true
    /\ word_before prev = false
    /\ In (e, g') (rmatch r (last_char prev ds) rest)
    /\ g = ds :: g'.
Proof.
  rewrite rmatch_Seq_In. split.
  - intros (p1 & s1 & g1 & g2 & H1 & H2 & ->).
    apply rmatch_WordB_In in H1 as (E & -> & X). injection E as -> ->.
    apply rmatch_Seq_In in H2 as (p2 & s2 & g3 & g4 & H2 & H3 & ->).
    apply rmatch_Group_In in H2 as (g5 & H2 & ->).
    apply rmatch_Rep_In in H2 as [-> H2].
    apply rep_In in H2 as (ds & E & F & A & L & _). simpl in *. subst.
    rewrite consumed_app. exists ds, s2, g4.
    destruct ds as [|c ds]; [simpl in L; lia|]. simpl in *.
    apply andb_true_iff in A as [Dc A]. rewrite (digit_is_word c Dc) in X.
    rewrite Dc, A. repeat split; auto.
    destruct (word_before prev); [discriminate|reflexivity].
  - intros (ds & rest & g' & -> & T & A & W & H & ->).
    exists prev, (ds +:+ rest), [], (ds :: g'). split; [|split; [|reflexivity]].
    + apply rmatch_WordB_In. repeat split. rewrite W.
      destruct ds as [|c ds]; [discriminate|]. simpl in *.
      apply andb_true_iff in A as [Dc _]. now rewrite (digit_is_word c Dc).
    + apply rmatch_Seq_In. exists (last_char prev ds), rest, [ds], g'.
      split; [|split; [exact H|reflexivity]].
      apply rmatch_Group_In. exists []. simpl. rewrite consumed_app.
      split; [|reflexivity]. apply rmatch_Rep_In. split; [reflexivity|].
      apply rep_In. exists ds. simpl. repeat split; auto.
      destruct ds; [discriminate|simpl; lia].
Qed.

(** The matches of the car-count pattern. *)
Lemma car_count_match_In prev s (e : position) (g : list string) :
  In (e, g) (rmatch CAR_COUNT_PATTERN prev s) <->
  exists ds ws,
    s = ds +:+ ws +:+ "car" +:+ snd e
    /\ truthy ds = true /\ all_chars is_digit ds = true
    /\ truthy ws = true /\ all_chars is_space ws = true
    /\ word_before prev = false /\ g = [ds] /\ fst e = Some "r"%char.
Proof.
  unfold CAR_COUNT_PATTERN, seq. simpl fold_right. rewrite digits_then_In.
  split.
  - intros (ds & rest & g' & -> & T & A & W & H & ->).
    apply rmatch_Seq_In in H as (p1 & s1 & g1 & g2 & H1 & H2 & ->).
    apply rmatch_Rep_In in H1 as [-> H1].
    apply rep_In in H1 as (ws & -> & F & As & L & _). cbn [fst snd] in *.
    apply rmatch_Seq_In in H2 as (p2 & s2 & g3 & g4 & H2 & H3 & ->).
    apply rmatch_lit_In in H2 as (-> & F2 & ->).
    apply rmatch_Eps_In in H3 as [-> ->]. cbn [fst snd] in *.
    exists ds, ws. repeat split; auto.
    destruct ws; [simpl in L; lia|reflexivity].
  - intros (ds & ws & -> & T & A & Ts & As & W & -> & F).
    exists ds, (ws +:+ "car" +:+ snd e), []. repeat split; auto.
    apply rmatch_Seq_In.
    exists (last_char (last_char prev ds) ws), ("car" +:+ snd e), [], [].
    split; [|split; [|reflexivity]].
    + apply rmatch_Rep_In. split; [reflexivity|]. apply rep_In.
      exists ws. simpl. repeat split; auto.
      destruct ws; [discriminate|simpl; lia].
    + apply rmatch_Seq_In. exists (Some "r"%char), (snd e), [], [].
      split; [|split; [|reflexivity]].
      * apply rmatch_lit_In. simpl. auto.
      * apply rmatch_Eps_In. destruct e as [e1 e2]. cbn [fst snd] in *.
        now subst.
Qed.

(** The matches of its single-space variant. *)
Lemma single_space_match_In prev s (e : position) (g : list string) :
  In (e, g) (rmatch SINGLE_SPACE_PATTERN prev s) <->
  exists ds,
    s = ds +:+ " car" +:+ snd e
    /\ truthy ds = true /\ all_chars is_digit ds = true
    /\ word_before prev = false /\ g = [ds] /\ fst e = Some "r"%char.
Proof.
  unfold SINGLE_SPACE_PATTERN, seq. simpl fold_right. rewrite digits_then_In.
  split.
  - intros (ds & rest & g' & -> & T & A & W & H & ->).
    apply rmatch_Seq_In in H as (p1 & s1 & g1 & g2 & H1 & H2 & ->).
    apply rmatch_lit_In in H1 as (-> & F & ->).
    apply rmatch_Eps_In in H2 as [-> ->]. cbn [fst snd] in *.
    exists ds. repeat split; auto.
  - intros (ds & -> & T & A & W & -> & F).
    exists ds, (" car" +:+ snd e), []. repeat split; auto.
    apply rmatch_Seq_In. exists (Some "r"%char), (snd e), [], [].
    split; [|split; [|reflexivity]].
    + apply rmatch_lit_In. simpl. auto.
    + apply rmatch_Eps_In. destruct e as [e1 e2]. cbn [fst snd] in *. now subst.
Qed.

Lemma lower_length (s : string) : String.length (lower s) = String.length s.
Proof. induction s as [|c s IH]; simpl; congruence. Qed.

Section CarCount.

Context {RT : Runtime}.

(** Extraction yields the number written by the digits of the leftmost
    occurrence, provided [int] accepts them. *)
Lemma extract_car_count_iff (t : string) (n : Z) :
  extract_car_count_from_text t = Ok (Some n) <->
  exists pre ds ws post,
    car_occurrence (lower t) pre ds ws post
    /\ (forall pre' ds' ws' post',
          car_occurrence (lower t) pre' ds' ws' post' ->
          String.length pre <= String.length pre')
    /\ within_cap int_max_str_digits ds = true
    /\ n = int_loop 0 ds.
Proof.
  pose proof (extract_car_count_cases t) as C.
  destruct (re_search CAR_COUNT_PATTERN (lower t)) as [m|] eqn:S.
  - destruct C as (u & Gs & Tu & Au & E). rewrite E.
    apply search_from_Some in S.
    destruct S as (pre & s1 & e & g & tl & Es & R & -> & Left).
    simpl in Gs. subst g.
    assert (In (e, [u]) (rmatch CAR_COUNT_PATTERN (last_char None pre) s1))
      as I by (rewrite R; now left).
    apply car_count_match_In in I
      as (ds & ws & E1 & Td & Ad & Tw & Aw & W & Eg & _).
    injection Eg as <-.
    assert (car_occurrence (lower t) pre u ws (snd e)) as Occ.
    { unfold car_occurrence. rewrite Es, E1. repeat split; auto. }
    assert (forall pre' ds' ws' post',
              car_occurrence (lower t) pre' ds' ws' post' ->
              String.length pre <= String.length pre') as Leftmost.
    { intros pre' ds' ws' post' (E' & Td' & Ad' & Tw' & Aw' & W').
      destruct (le_lt_dec (String.length pre) (String.length pre'))
        as [L|L]; [exact L|exfalso].
      specialize (Left pre' (ds' +:+ ws' +:+ "car" +:+ post') E' L).
      assert (In ((Some "r"%char, post'), [ds'])
                 (rmatch CAR_COUNT_PATTERN (last_char None pre')
                    (ds' +:+ ws' +:+ "car" +:+ post'))) as I.
      { apply car_count_match_In. exists ds', ws'. simpl.
        repeat split; auto. }
      rewrite Left in I. destruct I. }
    split.
    + intros H. exists pre, u, ws, (snd e).
      destruct (within_cap int_max_str_digits u); [|discriminate].
      injection H as <-. auto.
    + intros (pre' & ds' & ws' & post' & Occ' & Left' & Cap & ->).
      (* the two leftmost occurrences coincide *)
      pose proof (Leftmost _ _ _ _ Occ') as L1.
      pose proof (Left' _ _ _ _ Occ) as L2.
      destruct Occ' as (E' & Td' & Ad' & Tw' & Aw' & W').
      rewrite Es, E1 in E'.
      apply sapp_inv_length in E' as [<- E']; [|lia].
      assert (u = ds') as <-.
      { apply (run_unique is_digit u (ws +:+ "car" +:+ snd e)
                 ds' (ws' +:+ "car" +:+ post') E' Au Ad').
        - destruct ws as [|c ws]; [discriminate|]. simpl in *.
          apply andb_true_iff in Aw as [Sc _]. now apply space_not_digit.
        - destruct ws' as [|c ws']; [discriminate|]. simpl in *.
          apply andb_true_iff in Aw' as [Sc _]. now apply space_not_digit. }
      now rewrite Cap.
  - rewrite C. split; [discriminate|].
    intros (pre & ds & ws & post & (E & Td & Ad & Tw & Aw & W) & _).
    exfalso. pose proof (proj1 (search_from_None _ _ _) S) as N.
    specialize (N pre (ds +:+ ws +:+ "car" +:+ post) E).
    assert (In ((Some "r"%char, post), [ds])
               (rmatch CAR_COUNT_PATTERN (last_char None pre)
                  (ds +:+ ws +:+ "car" +:+ post))) as I.
    { apply car_count_match_In. exists ds, ws. simpl. repeat split; auto. }
    rewrite N in I. destruct I.
Qed.

(** When the cap cannot bite, any occurrence will do. *)
Lemma extract_car_count_uncapped (t : string) :
  int_max_str_digits = 0 \/ String.length t <= int_max_str_digits ->
  (exists n, extract_car_count_from_text t = Ok (Some n))
  <-> exists pre ds ws post, car_occurrence (lower t) pre ds ws post.
Proof.
  intros Cap. split.
  - intros (n & H). apply extract_car_count_iff in H
      as (pre & ds & ws & post & Occ & _). eauto.
  - intros (pre & ds & ws & post & (E & Td & Ad & Tw & Aw & W)).
    pose proof (extract_car_count_cases t) as C.
    destruct (re_search CAR_COUNT_PATTERN (lower t)) as [m|] eqn:S.
    + destruct C as (u & Gs & Tu & Au & Eu). rewrite Eu.
      assert (within_cap int_max_str_digits u = true) as W'.
      { unfold within_cap. destruct Cap as [->|Cap]; [reflexivity|].
        apply orb_true_iff. right. apply Nat.leb_le.
        apply search_from_Some in S.
        destruct S as (pre' & s1 & e & g & tl & Es & R & -> & _).
        simpl in Gs. subst g.
        assert (In (e, [u]) (rmatch CAR_COUNT_PATTERN (last_char None pre') s1))
          as I by (rewrite R; now left).
        apply car_count_match_In in I
          as (ds' & ws' & E1 & _ & _ & _ & _ & _ & Eg & _).
        injection Eg as <-.
        pose proof (lower_length t) as Len.
        rewrite Es, E1, !slength_app in Len. lia. }
      rewrite W'. eauto.
    + exfalso. pose proof (proj1 (search_from_None _ _ _) S) as N.
      specialize (N pre (ds +:+ ws +:+ "car" +:+ post) E).
      assert (In ((Some "r"%char, post), [ds])
                 (rmatch CAR_COUNT_PATTERN (last_char None pre)
                    (ds +:+ ws +:+ "car" +:+ post))) as I.
      { apply car_count_match_In. exists ds, ws. simpl. repeat split; auto. }
      rewrite N in I. destruct I.
Qed.

End CarCount.

(** * The specified properties *)

Section Claims.

Context {RT : Runtime}.

(** C1.  The main function returns a text for every question and every
    collection, and so does every step of it; each way of finding nothing
    has its fixed text: an empty collection, a member that cannot be
    identified, and, for each extractor, no message that matches. *)
Theorem answer_never_raises :
  (forall question messages,
     exists s, answer_question_baseline question messages = Ok s)
  /\ (forall question messages,
        (exists o, find_member_name_in_question question messages = Ok o)
        /\ (exists o, extract_requested_first_name question = Ok o)
        /\ (forall requested, exists o,
              suggest_similar_member_by_first_name requested messages (4 # 5)
              = Ok o))
  /\ (forall qtype question name member_msgs,
        member_msgs <> [] ->
        exists core,
          core_answer_for qtype question name member_msgs
          = Ok core)
  /\ (forall question,
        answer_question_baseline question []
        = Ok "I couldn't retrieve any member messages.")
  /\ (forall question messages,
        messages <> [] ->
        find_member_name_in_question question messages = Ok None ->
        (forall requested,
           extract_requested_first_name question = Ok (Some requested) ->
           suggest_similar_member_by_first_name requested messages (4 # 5)
           = Ok None) ->
        answer_question_baseline question messages
        = Ok "I couldn't identify which member the question is about.")
  /\ (forall name member_msgs,
        (forall m, In m member_msgs ->
           re_search CAR_COUNT_PATTERN (lower (text m)) = None) ->
        answer_car_count name member_msgs
        = Ok ("I couldn't find how many cars " +:+ name
                +:+ " has in their messages."))
  /\ (forall name member_msgs,
        (forall m, In m member_msgs -> about_favorite_restaurants m = false) ->
        answer_favorite_restaurants name member_msgs
        = Ok ("I couldn't find any messages about " +:+ name
                +:+ "'s favorite restaurants."))
  /\ (forall question name member_msgs,
        re_search TRIP_TO_PATTERN question = None ->
        (forall m, In m member_msgs -> mentions "trip" m = false) ->
        answer_trip_when question name member_msgs
        = Ok ("I couldn't find any trip details for " +:+ name +:+ "."))
  /\ (forall question name member_msgs destination,
        extract_destination_from_question question = Ok (Some destination) ->
        destination <> "" ->
        (forall m, In m member_msgs ->
           mentions (lower destination) m = false) ->
        answer_trip_when question name member_msgs
        = Ok ("I couldn't find any messages from " +:+ name
                +:+ " about a trip to " +:+ destination +:+ ".")).
Proof.
  assert (Empty : forall (f : MemberMessage -> bool) l,
            (forall m, In m l -> f m = false) -> List.filter f l = []).
  { intros f l H. induction l as [|a l IH]; simpl; [reflexivity|].
    rewrite (H a (or_introl eq_refl)). apply IH. intros m I. apply H.
    now right. }
  repeat apply conj.
  - intros question messages. destruct messages as [|m0 ms] eqn:Em.
    + eexists. reflexivity.
    + rewrite <- Em. assert (messages <> []) as NE by (subst; discriminate).
      destruct (answer_cases question messages NE)
        as (strict & requested & suggested & _ & _ & _ & C).
      destruct suggested as [s|]; [|destruct strict as [s|]].
      * destruct C as (_ & core & _ & Ea). eauto.
      * destruct C as (_ & core & _ & Ea). eauto.
      * eauto.
  - intros question messages. split; [|split].
    + destruct (find_member_Ok question messages) as (o & E & _). eauto.
    + destruct (extract_requested_first_name_Ok question) as (o & E & _).
      eauto.
    + intros requested.
      destruct (suggest_Ok requested messages (4 # 5)
                  ltac:(reflexivity)) as (o & E & _). eauto.
  - intros qtype question name member_msgs NE.
    now apply core_answer_for_Ok.
  - reflexivity.
  - intros question messages NE Ef Hg.
    destruct (answer_cases question messages NE)
      as (strict & requested & suggested & Ef' & Er & Eg & C).
    rewrite Ef in Ef'. injection Ef' as <-.
    destruct requested as [r|].
    + rewrite (Hg r Er) in Eg. injection Eg as <-. exact C.
    + subst suggested. exact C.
  - intros name member_msgs H. unfold answer_car_count.
    apply car_count_loop_none. intros m I. apply in_rev in I.
    pose proof (extract_car_count_cases (text m)) as C.
    now rewrite (H m I) in C.
  - intros name member_msgs H. unfold answer_favorite_restaurants.
    now rewrite (Empty _ _ H).
  - intros question name member_msgs S H. unfold answer_trip_when.
    destruct (extract_destination_Ok question) as (o & E & N).
    rewrite E, (N S). simpl. unfold answer_trip_any.
    now rewrite (Empty _ _ H).
  - intros question name member_msgs destination E D H.
    unfold answer_trip_when. rewrite E. simpl.
    apply truthy_iff in D. rewrite D. simpl. unfold answer_trip_to.
    now rewrite (Empty _ _ H).
Qed.

(** C2.  When the lower-cased name of some member occurs in the
    lower-cased question, the resolver answers by the full-name rule alone:
    it returns the first such name of the member names sorted longest
    first, so a name at least as long as any other that occurs, and the
    very name [n] when every other name that occurs is shorter.  No first
    name is looked at: "Sophia Al-Farsi" in the question resolves to
    "Sophia Al-Farsi" whoever else is called Sophia. *)
Theorem full_name_match_wins (question : string)
    (messages : list MemberMessage) (n : string) :
  (exists m, In m messages /\ member_name m = Some n) -> n <> "" ->
  contains (lower n) (lower question) = true ->
  let occurs := fun x => contains (lower x) (lower question) in
  let sorted := sorted_by_len_desc (unique_names messages) in
  exists r,
    find_member_name_in_question question messages = Ok (Some r)
    /\ (exists m, In m messages /\ member_name m = Some r) /\ r <> ""
    /\ occurs r = true
    /\ String.length n <= String.length r
    /\ StronglySorted longer_first sorted
    /\ (exists before after,
          sorted = before ++ r :: after
          /\ forall x, In x before -> occurs x = false)
    /\ ((forall n', In n' (unique_names messages) -> n' <> n ->
           occurs n' = true -> String.length n' < String.length n) ->
        r = n).
Proof.
  intros Hm Hn Hc occurs sorted.
  assert (In n (unique_names messages)) as I.
  { apply unique_names_In. split; [now apply truthy_iff | exact Hm]. }
  assert (messages <> []) as NE.
  { destruct Hm as (m & Im & _). intros ->. destruct Im. }
  pose proof (find_member_cases question messages NE) as C. simpl in C.
  fold sorted in C.
  assert (full_name_hit (lower question) n = true) as Hit.
  { unfold full_name_hit. rewrite Hc. apply truthy_iff in Hn. now rewrite Hn. }
  destruct (List.find _ sorted) as [r|] eqn:F.
  - exists r. split; [exact C|].
    pose proof (sorted_by_len_desc_sorted (unique_names messages)) as S.
    fold sorted in S.
    assert (String.length n <= String.length r) as Len.
    { apply (find_sorted_longest _ sorted r S F n); [|exact Hit].
      now apply sorted_by_len_desc_In. }
    pose proof F as F'. apply find_first in F' as (before & after & E & Hr & B).
    unfold full_name_hit in Hr. apply andb_true_iff in Hr as [Tr Cr].
    assert (In r (unique_names messages)) as Ir.
    { apply sorted_by_len_desc_In. fold sorted. rewrite E.
      apply in_app_iff. right. now left. }
    pose proof Ir as Ir'. apply unique_names_In in Ir' as [_ Mr].
    split; [exact Mr|]. split; [now apply truthy_iff|].
    split; [exact Cr|]. split; [exact Len|]. split; [exact S|]. split.
    + exists before, after. split; [exact E|]. intros x Ix.
      assert (In x (unique_names messages)) as Ix'.
      { apply sorted_by_len_desc_In. fold sorted. rewrite E.
        apply in_app_iff. now left. }
      apply unique_names_In in Ix' as [Tx _].
      specialize (B x Ix). unfold full_name_hit in B.
      rewrite Tx in B. exact B.
    + intros Short. destruct (String.eqb_spec r n) as [E'|N]; [exact E'|].
      specialize (Short r Ir N Cr). lia.
  - exfalso. apply find_None_iff with (y := n) in F; [congruence|].
    now apply sorted_by_len_desc_In.
Qed.

(** C3, amended.  When no full name occurs in the question, no token of
    the question maps to exactly one full name, and some token maps to
    more than one, the resolver returns, among the names the ambiguous
    tokens map to, taken in the order they are met, the first one of the
    highest message count.  In particular, if the only members are
    "Layla Smith" and "Layla Jones", the question "Layla" resolves to the
    one with strictly more messages. *)
Theorem popularity_rule_after_unique_rule :
  (forall question messages,
     let names := unique_names messages in
     let tokens := findall_alpha (lower question) in
     (forall n, In n names -> contains (lower n) (lower question) = false) ->
     (forall t, In t tokens -> length (sharing_first t names) <> 1) ->
     (exists t, In t tokens /\ 1 < length (sharing_first t names)) ->
     exists c before after,
       find_member_name_in_question question messages = Ok (Some c)
       /\ all_candidates names tokens = before ++ c :: after
       /\ (forall c', In c' before ->
             message_count messages c' < message_count messages c)
       /\ (forall c', In c' after ->
             message_count messages c' <= message_count messages c))
  /\ (forall messages a b,
        (a = "Layla Smith" /\ b = "Layla Jones")
        \/ (a = "Layla Jones" /\ b = "Layla Smith") ->
        (forall m, In m messages ->
           member_name m = Some "Layla Smith"
           \/ member_name m = Some "Layla Jones") ->
        message_count messages b < message_count messages a ->
        find_member_name_in_question "Layla" messages = Ok (Some a)).
Proof.
  split.
  - exact popularity_rule_general.
  - exact layla_resolves_to_the_busier.
Qed.

(** C4.  When the strict resolver, tried on a collection that is not
    empty, finds nobody and a first name is extracted from the question,
    the main function answers under the clarification, which names the
    requested first name and the adopted member and carries the core
    answer after a blank line, exactly when the lower-cased first name of
    some member has a ratio of at least 0.80 to the lower-cased requested
    name; the member adopted has the highest ratio.  When every ratio is
    below 0.80 the answer is the "cannot identify" text. *)
Theorem fuzzy_suggestion_threshold (question : string)
    (messages : list MemberMessage) (requested : string) :
  messages <> [] ->
  find_member_name_in_question question messages = Ok None ->
  extract_requested_first_name question = Ok (Some requested) ->
  let sim := similarity ratio (lower requested) in
  let names := unique_names messages in
  let reached := exists n r, In n names /\ sim n = Some r /\ (4 # 5 <= r)%Q in
  (reached ->
   exists s r core,
     suggest_similar_member_by_first_name requested messages (4 # 5)
     = Ok (Some s)
     /\ In s names /\ sim s = Some r /\ (4 # 5 <= r)%Q
     /\ (forall c r', In c names -> sim c = Some r' -> (r' <= r)%Q)
     /\ core_answer_for (detect_question_type question)
          question s (filter_messages_for_member messages s) = Ok core
     /\ answer_question_baseline question messages
        = Ok ("I couldn't find any member named " +:+ requested
                +:+ ", but I did find " +:+ s
                +:+ ". Here is what their messages say:"
                +:+ newline +:+ newline +:+ core))
  /\ ((forall n r, In n names -> sim n = Some r -> (r < 4 # 5)%Q) ->
      answer_question_baseline question messages
      = Ok "I couldn't identify which member the question is about.")
  /\ ((exists s core,
         answer_question_baseline question messages
         = Ok (clarification (Some requested) (Some s) core)) ->
      reached).
Proof.
  intros NE Ef Er sim names reached.
  destruct (answer_cases question messages NE)
    as (strict & requested' & suggested & Ef' & Er' & Eg & C).
  rewrite Ef in Ef'. injection Ef' as <-.
  rewrite Er in Er'. injection Er' as <-.
  destruct (suggest_Ok requested messages (4 # 5) ltac:(reflexivity))
    as (o & Eo & Ho).
  rewrite Eg in Eo. injection Eo as <-. fold sim names in Ho.
  destruct suggested as [s|].
  - destruct Ho as (I & r & Sr & Lr & Max).
    destruct C as (_ & core & Ec & Ea).
    split; [|split].
    + intros _. exists s, r, core. repeat split; auto.
    + intros Low. exfalso. specialize (Low s r I Sr).
      exact (Qlt_not_le _ _ Low Lr).
    + intros _. exists s, r. auto.
  - split; [|split].
    + intros (n & r & I & Sr & Lr). exfalso.
      exact (Qlt_not_le _ _ (Ho n r I Sr) Lr).
    + intros _. exact C.
    + intros (s & core & Ea). rewrite C in Ea. discriminate Ea.
Qed.

(** C5.  The classifier tries its keyword rules on the lower-cased question
    in the order car count, favorite restaurants, trip, generic, and the
    first that applies wins; a question with both the car-count and the
    favorite-restaurant keywords is a car-count question, and its answer is
    that of the car-count extractor alone. *)
Theorem detect_question_type_priority (question : string) :
  let q := lower question in
  let cars := contains "how many" q && contains "car" q in
  let favorites := contains "favorite" q && contains "restaurant" q in
  let trips := contains "when" q && contains "trip" q in
  (cars = true -> detect_question_type question = car_count)
  /\ (cars = false -> favorites = true ->
        detect_question_type question = favorite_restaurants)
  /\ (cars = false -> favorites = false -> trips = true ->
        detect_question_type question = trip_when)
  /\ (cars = false -> favorites = false -> trips = false ->
        detect_question_type question = generic)
  /\ (cars = true -> favorites = true ->
        detect_question_type question = car_count
        /\ forall messages, messages <> [] ->
             answer_question_baseline question messages = Ok CANNOT_IDENTIFY
             \/ exists name core,
                  answer_car_count name
                    (filter_messages_for_member messages name) = Ok core
                  /\ (answer_question_baseline question messages = Ok core
                      \/ exists requested,
                           answer_question_baseline question messages
                           = Ok (clarification requested (Some name) core))).
Proof.
  intros q cars favorites trips. unfold detect_question_type.
  fold q. fold cars favorites trips.
  repeat split; try (intros; repeat match goal with
                                    | H : _ = _ |- _ => rewrite H
                                    end; reflexivity).
  intros messages NE.
  destruct (answer_cases question messages NE)
    as (strict & requested & suggested & _ & _ & _ & C).
  assert (detect_question_type question = car_count) as D.
  { unfold detect_question_type. fold q. fold cars. now rewrite H. }
  rewrite D in C. simpl in C.
  destruct suggested as [s|]; [|destruct strict as [s|]].
  - destruct C as (_ & core & Ec & Ea). right. exists s, core.
    split; [exact Ec|]. right. eauto.
  - destruct C as (_ & core & Ec & Ea). right. exists s, core. auto.
  - now left.
Qed.

(** C6.  The car-count extractor reads the member's messages from the
    newest to the oldest and answers from the first that yields a count,
    with "car" for 1 and "cars" otherwise; when none yields a count it
    answers that none was found for the member. *)
Theorem answer_car_count_newest_first (name : string)
    (messages : list MemberMessage) :
  (forall older m newer n,
     messages = older ++ m :: newer ->
     (forall m', In m' newer ->
        extract_car_count_from_text (text m') = Ok None) ->
     extract_car_count_from_text (text m) = Ok (Some n) ->
     answer_car_count name messages
     = Ok (name +:+ " has " +:+ py_str n +:+ " car"
             +:+ (if (n =? 1)%Z then "" else "s") +:+ "."))
  /\ ((forall m, In m messages ->
         extract_car_count_from_text (text m) = Ok None) ->
      answer_car_count name messages
      = Ok ("I couldn't find how many cars " +:+ name
              +:+ " has in their messages."))
  /\ (forall m1 m2,
        text m1 = "I have 1 car" -> text m2 = "Actually now I have 2 cars" ->
        answer_car_count name [m1; m2]
        = Ok (name +:+ " has 2 cars.")
        /\ answer_car_count name [m1]
           = Ok (name +:+ " has 1 car.")).
Proof.
  assert (Found : forall older m newer n,
    (forall m', In m' newer ->
       extract_car_count_from_text (text m') = Ok None) ->
    extract_car_count_from_text (text m) = Ok (Some n) ->
    answer_car_count name (older ++ m :: newer)
    = Ok (name +:+ " has " +:+ py_str n +:+ " car"
            +:+ (if (n =? 1)%Z then "" else "s") +:+ ".")).
  { intros older m newer n Hn Hm. unfold answer_car_count.
    rewrite rev_app_distr. simpl. rewrite <- app_assoc. simpl.
    rewrite (car_count_loop_found name (rev newer) m
               (rev older) n);
      [|intros m' I; apply Hn; now apply in_rev|exact Hm].
    unfold car_count_found. now destruct (n =? 1)%Z. }
  assert (One : extract_car_count_from_text "I have 1 car" = Ok (Some 1%Z)).
  { apply (extract_car_count_one_digit _ "1"); [reflexivity | simpl; lia]. }
  assert (Two : extract_car_count_from_text "Actually now I have 2 cars"
                = Ok (Some 2%Z)).
  { apply (extract_car_count_one_digit _ "2"); [reflexivity | simpl; lia]. }
  split; [|split].
  - intros older m newer n -> Hn Hm. now apply Found.
  - intros H. unfold answer_car_count.
    rewrite (car_count_loop_none name); [reflexivity|].
    intros m' I. apply H. now apply in_rev.
  - intros m1 m2 E1 E2. split.
    + refine (Found [m1] m2 [] 2%Z _ _); [intros ? []|].
      rewrite E2. exact Two.
    + refine (Found [] m1 [] 1%Z _ _); [intros ? []|].
      rewrite E1. exact One.
Qed.

(** C7, amended.  Extraction finds a count in a message exactly when the
    lower-cased text has an occurrence of digits at a word boundary, one or
    more blank characters (of any kind, not one space only) and then
    "car" (so "cars" too), and [int] accepts the digits of the leftmost
    such occurrence; the count is the number they write.  For a text within
    the interpreter's cap on integer conversions, or without a cap, any
    occurrence is enough. *)
Theorem car_count_extraction_iff (t : string) :
  (forall n,
     extract_car_count_from_text t = Ok (Some n) <->
     exists pre ds ws post,
       car_occurrence (lower t) pre ds ws post
       /\ (forall pre' ds' ws' post',
             car_occurrence (lower t) pre' ds' ws' post' ->
             String.length pre <= String.length pre')
       /\ within_cap int_max_str_digits ds = true
       /\ n = int_loop 0 ds)
  /\ (int_max_str_digits = 0 \/ String.length t <= int_max_str_digits ->
      ((exists n, extract_car_count_from_text t = Ok (Some n)) <->
       exists pre ds ws post, car_occurrence (lower t) pre ds ws post)).
Proof.
  split.
  - intros n. apply extract_car_count_iff.
  - apply extract_car_count_uncapped.
Qed.

(** C8.  With a destination [d] extracted from the question (a text that
    is not empty: a capture of blanks only is no destination), the trip
    extractor looks only at the messages whose lower-cased text contains
    the lower-cased [d]: with none it answers that none was found for the
    member and [d]; otherwise it answers from the last of them, with the
    date phrase found in it or else with its text as it is.  Messages that
    do not mention [d] have no part in the answer. *)
Theorem trip_to_destination_scoping (question name : string)
    (messages : list MemberMessage) (d : string) :
  extract_destination_from_question question = Ok (Some d) -> d <> "" ->
  let about := List.filter (mentions (lower d)) messages in
  (about = [] ->
   answer_trip_when question name messages
   = Ok ("I couldn't find any messages from " +:+ name
           +:+ " about a trip to " +:+ d +:+ "."))
  /\ (forall earlier latest,
        about = earlier ++ [latest] ->
        In latest messages
        /\ contains (lower d) (lower (text latest)) = true
        /\ answer_trip_when question name messages
           = Ok (match extract_date_phrase (text latest) with
                 | Some date =>
                     name +:+ " is planning their trip to " +:+ d
                       +:+ " around " +:+ date +:+ "."
                 | None => text latest
                 end))
  /\ answer_trip_when question name messages
     = answer_trip_when question name about
  /\ (forall before m after,
        messages = before ++ m :: after -> mentions (lower d) m = false ->
        answer_trip_when question name messages
        = answer_trip_when question name (before ++ after)).
Proof.
  intros E D about. apply truthy_iff in D.
  assert (To : forall l, answer_trip_when question name l
                         = answer_trip_to name d l).
  { intros l. unfold answer_trip_when. rewrite E. simpl. now rewrite D. }
  assert (Same : forall l l',
            List.filter (mentions (lower d)) l
            = List.filter (mentions (lower d)) l' ->
            answer_trip_to name d l = answer_trip_to name d l').
  { intros l l' H. unfold answer_trip_to. now rewrite H. }
  split; [|split; [|split]].
  - intros H. rewrite To.
    pose proof (answer_trip_to_cases name d messages) as C.
    fold about in C. now rewrite H in C.
  - intros earlier latest H.
    assert (In latest about) as I.
    { rewrite H. apply in_app_iff. right. now left. }
    apply filter_In in I as [I M]. split; [exact I|]. split; [exact M|].
    rewrite To. pose proof (answer_trip_to_cases name d messages) as C.
    fold about in C. rewrite H in C.
    destruct (earlier ++ [latest]) as [|c cs] eqn:El.
    { destruct earlier; discriminate. }
    destruct C as (older & latest' & E' & C).
    rewrite <- El in E'. apply app_inj_tail in E' as [_ <-]. rewrite C.
    unfold trip_to_around. reflexivity.
  - rewrite !To. apply Same. unfold about.
    induction messages as [|a l IH]; simpl; [reflexivity|].
    destruct (mentions (lower d) a) eqn:M; simpl; [|exact IH].
    rewrite M. f_equal. exact IH.
  - intros before m after -> M. rewrite !To. apply Same.
    rewrite !List.filter_app. simpl. now rewrite M.
Qed.

(** C9.  On the empty collection the main function answers the fixed
    "nothing retrieved" text, whatever the question. *)
Theorem answer_empty_collection (question : string) :
  answer_question_baseline question [] = Ok NOTHING_RETRIEVED
  /\ NOTHING_RETRIEVED = "I couldn't retrieve any member messages.".
Proof. split; reflexivity. Qed.

(** C10, amended.  A name produced by the strict resolver or by the fuzzy
    suggestion is a non-empty member name of the collection, so the list of
    that member's messages is not empty and the main function never takes
    its "no messages for the member" branch: its answer is the "nothing
    retrieved" text, the "cannot identify" text, or what the extractor of
    the question's type answered for a member of the collection, possibly
    under the clarification. *)
Theorem resolved_member_has_messages (question : string)
    (messages : list MemberMessage) :
  (forall name,
     find_member_name_in_question question messages = Ok (Some name)
     \/ (exists requested,
           suggest_similar_member_by_first_name requested messages (4 # 5)
           = Ok (Some name)) ->
     name <> ""
     /\ (exists m, In m messages /\ member_name m = Some name)
     /\ filter_messages_for_member messages name <> [])
  /\ exists s,
       answer_question_baseline question messages = Ok s
       /\ (s = "I couldn't retrieve any member messages."
           \/ s = "I couldn't identify which member the question is about."
           \/ exists name core,
                filter_messages_for_member messages name <> []
                /\ core_answer_for
                     (detect_question_type question) question name
                     (filter_messages_for_member messages name) = Ok core
                /\ (s = core
                    \/ exists requested,
                         s = clarification requested (Some name) core)).
Proof.
  split.
  - intros name H.
    assert (In name (unique_names messages)) as I.
    { destruct H as [H|(requested & H)].
      - destruct (find_member_Ok question messages) as (o & E & Ho).
        rewrite E in H. injection H as ->. now apply Ho.
      - destruct (suggest_Ok requested messages (4 # 5)
                    ltac:(reflexivity)) as (o & E & Ho).
        rewrite E in H. injection H as ->. now destruct Ho. }
    pose proof (unique_names_nonempty_filter _ _ I) as F.
    apply unique_names_In in I as [T M]. apply truthy_iff in T. auto.
  - destruct messages as [|m0 ms] eqn:Em.
    + eexists. split; [reflexivity|]. now left.
    + rewrite <- Em. assert (messages <> []) as NE by (subst; discriminate).
      destruct (answer_cases question messages NE)
        as (strict & requested & suggested & _ & _ & _ & C).
      destruct suggested as [s|]; [|destruct strict as [s|]].
      * destruct C as (I & core & Ec & Ea).
        exists (clarification requested (Some s) core).
        split; [exact Ea|]. right. right. exists s, core.
        split; [now apply unique_names_nonempty_filter|]. split; [exact Ec|].
        right. eauto.
      * destruct C as (I & core & Ec & Ea). exists core.
        split; [exact Ea|]. right. right. exists s, core.
        split; [now apply unique_names_nonempty_filter|]. auto.
      * eexists. split; [exact C|]. right. now left.
Qed.

End Claims.

(** * Instances of the properties on sample data *)

Lemma answer_never_raises_witness :
  answer_question_baseline (RT := cpython) "what about Zed?" layla_and_bob
  = Ok "I couldn't identify which member the question is about."
  /\ answer_car_count (RT := cpython) "Layla Jones"
       [message "Layla Jones" "Hello from Lisbon"]
     = Ok "I couldn't find how many cars Layla Jones has in their messages."
  /\ answer_favorite_restaurants "Bob Stone"
       [message "Bob Stone" "Back on Monday"]
     = Ok "I couldn't find any messages about Bob Stone's favorite restaurants."
  /\ answer_trip_when "When is the trip?" "Bob Stone"
       [message "Bob Stone" "Back on Monday"]
     = Ok "I couldn't find any trip details for Bob Stone."
  /\ answer_trip_when "When is the trip to Rome?" "Bob Stone"
       [message "Bob Stone" "Back on Monday"]
     = Ok "I couldn't find any messages from Bob Stone about a trip to Rome."
  /\ exists core,
       core_answer_for (RT := cpython) generic "hello" "Bob Stone"
         [message "Bob Stone" "Back on Monday"] = Ok core.
Proof.
  destruct (answer_never_raises (RT := cpython))
    as (_ & _ & Core & _ & Unknown & Cars & Favorites & Trip & TripTo).
  split; [|split; [|split; [|split; [|split]]]].
  - apply Unknown.
    + discriminate.
    + reflexivity.
    + intros requested E. vm_compute in E. injection E as <-. reflexivity.
  - apply Cars. intros m [<-|[]]. reflexivity.
  - apply Favorites. intros m [<-|[]]. reflexivity.
  - apply Trip; [reflexivity|]. intros m [<-|[]]. reflexivity.
  - refine (TripTo "When is the trip to Rome?" "Bob Stone"
              [message "Bob Stone" "Back on Monday"] "Rome" _ _ _);
      [reflexivity|discriminate|].
    intros m [<-|[]]. reflexivity.
  - apply Core. discriminate.
Defined.

Lemma full_name_match_wins_witness :
  find_member_name_in_question (RT := cpython)
    "What does Sophia Al-Farsi like?" sophia_and_namesake
  = Ok (Some "Sophia Al-Farsi").
Proof.
  destruct (full_name_match_wins (RT := cpython)
              "What does Sophia Al-Farsi like?" sophia_and_namesake
              "Sophia Al-Farsi")
    as (r & E & _ & _ & _ & _ & _ & _ & U).
  - exists (message "Sophia Al-Farsi" "My favorite restaurant is Nobu").
    split; [right; left; reflexivity | reflexivity].
  - discriminate.
  - reflexivity.
  - rewrite E. f_equal. f_equal. apply U. intros n' I N. vm_compute in I.
    destruct I as [<-|[<-|[]]]; [discriminate | congruence].
Defined.

(** C3 as it is written, without the condition that the unique first-name
    rule finds nothing, fails: "Layla" is ambiguous and Layla Smith has the
    most messages, but "Bob" maps to one member and is answered first. *)
Lemma popularity_rule_counterexample :
  let question := "Layla and Bob" in
  let names := unique_names (RT := cpython) layla_and_bob in
  let tokens := findall_alpha (lower question) in
  (forall n, In n names -> contains (lower n) (lower question) = false)
  /\ (exists t, In t tokens /\ 1 < length (sharing_first t names))
  /\ find_member_name_in_question (RT := cpython) question
       layla_and_bob = Ok (Some "Bob Stone")
  /\ ~ In "Bob Stone" (all_candidates names tokens)
  /\ message_count layla_and_bob "Bob Stone"
     < message_count layla_and_bob "Layla Smith".
Proof.
  repeat split.
  - intros n I. vm_compute in I.
    destruct I as [<-|[<-|[<-|[]]]]; reflexivity.
  - exists "layla". split; [now left | vm_compute; lia].
  - vm_compute. intros [H|[H|[]]]; discriminate.
  - vm_compute. lia.
Defined.

Lemma popularity_rule_after_unique_rule_witness :
  (exists c before after,
     find_member_name_in_question (RT := cpython) "Layla" two_laylas
     = Ok (Some c)
     /\ all_candidates (unique_names (RT := cpython) two_laylas)
          ["layla"] = before ++ c :: after
     /\ (forall c', In c' before ->
           message_count two_laylas c' < message_count two_laylas c)
     /\ (forall c', In c' after ->
           message_count two_laylas c' <= message_count two_laylas c))
  /\ find_member_name_in_question (RT := cpython) "Layla" two_laylas
     = Ok (Some "Layla Smith").
Proof.
  destruct (popularity_rule_after_unique_rule (RT := cpython))
    as [General Laylas].
  split.
  - apply (General "Layla" two_laylas).
    + intros n I. vm_compute in I. destruct I as [<-|[<-|[]]]; reflexivity.
    + intros t I. vm_compute in I. destruct I as [<-|[]]. vm_compute. lia.
    + exists "layla". split; [now left | vm_compute; lia].
  - apply (Laylas two_laylas "Layla Smith" "Layla Jones").
    + left. split; reflexivity.
    + intros m I. vm_compute in I.
      destruct I as [<-|[<-|[<-|[]]]]; simpl; auto.
    + vm_compute. lia.
Defined.

Lemma fuzzy_suggestion_threshold_witness :
  answer_question_baseline (RT := cpython)
    "What are Amira's favorite restaurants?" amina_only
  = Ok ("I couldn't find any member named Amira, but I did find "
          +:+ "Amina Van Den Berg. Here is what their messages say:"
          +:+ newline +:+ newline +:+ "My favorite restaurant is Nobu").
Proof.
  destruct (fuzzy_suggestion_threshold (RT := cpython)
              "What are Amira's favorite restaurants?" amina_only "Amira")
    as (Reached & _ & _).
  - discriminate.
  - reflexivity.
  - reflexivity.
  - destruct Reached as (s & r & core & Es & _ & _ & _ & _ & Ec & Ea).
    + exists "Amina Van Den Berg", (8 # 10)%Q.
      split; [now left|]. split; [reflexivity|]. discriminate.
    + rewrite Ea. vm_compute in Es. injection Es as <-.
      vm_compute in Ec. injection Ec as <-. reflexivity.
Defined.

Lemma detect_question_type_priority_witness :
  detect_question_type "How many cars are parked at my favorite restaurant?"
  = car_count.
Proof.
  destruct (detect_question_type_priority (RT := cpython)
              "How many cars are parked at my favorite restaurant?")
    as (_ & _ & _ & _ & H).
  destruct H as [D _]; [reflexivity | reflexivity | exact D].
Defined.

Lemma answer_car_count_newest_first_witness :
  answer_car_count (RT := cpython) "Layla Smith"
    [message "Layla Smith" "I have 1 car";
     message "Layla Smith" "Actually now I have 2 cars"]
  = Ok "Layla Smith has 2 cars.".
Proof.
  destruct (answer_car_count_newest_first (RT := cpython) "Layla Smith"
              [message "Layla Smith" "I have 1 car";
               message "Layla Smith" "Actually now I have 2 cars"])
    as (H & _ & _).
  apply (H [message "Layla Smith" "I have 1 car"]
           (message "Layla Smith" "Actually now I have 2 cars") [] 2%Z).
  - reflexivity.
  - intros m' [].
  - reflexivity.
Defined.

(** C7 as it is written fails: two spaces between the digits and "car"
    are read as well as one. *)
Lemma single_space_counterexample :
  extract_car_count_from_text (RT := cpython) "I have 2  cars" = Ok (Some 2%Z)
  /\ ~ exists pre ds post,
         lower "I have 2  cars" = pre +:+ ds +:+ " car" +:+ post
         /\ truthy ds = true /\ all_chars is_digit ds = true
         /\ word_before (last_char None pre) = false.
Proof.
  split; [reflexivity|].
  intros (pre & ds & post & E & T & A & W).
  assert (re_search SINGLE_SPACE_PATTERN (lower "I have 2  cars") = None)
    as S by reflexivity.
  pose proof (proj1 (search_from_None _ _ _) S pre _ E) as N.
  assert (In ((Some "r"%char, post), [ds])
             (rmatch SINGLE_SPACE_PATTERN (last_char None pre)
                (ds +:+ " car" +:+ post))) as I.
  { apply single_space_match_In. exists ds. simpl. repeat split; auto. }
  rewrite N in I. destruct I.
Defined.

Lemma car_count_extraction_iff_witness :
  (exists n, extract_car_count_from_text (RT := cpython) "We own 12  Cars"
             = Ok (Some n))
  <-> exists pre ds ws post,
        car_occurrence (lower "We own 12  Cars") pre ds ws post.
Proof.
  destruct (car_count_extraction_iff (RT := cpython) "We own 12  Cars")
    as [_ H].
  apply H. right. vm_compute. lia.
Defined.

Lemma trip_to_destination_scoping_witness :
  answer_trip_when "When is Amina's trip to Rome?" "Amina Van Den Berg"
    paris_then_rome
  = Ok "Amina Van Den Berg is planning their trip to Rome around 06/07/2025."
  /\ answer_trip_when "When is Amina's trip to Rome?" "Amina Van Den Berg"
       paris_then_rome
     = answer_trip_when "When is Amina's trip to Rome?" "Amina Van Den Berg"
         [message "Amina Van Den Berg" "Then a trip to Rome on 06/07/2025"].
Proof.
  destruct (trip_to_destination_scoping "When is Amina's trip to Rome?"
              "Amina Van Den Berg" paris_then_rome "Rome")
    as (_ & Latest & Same & _).
  - reflexivity.
  - discriminate.
  - split; [|exact Same].
    destruct (Latest []
                (message "Amina Van Den Berg"
                   "Then a trip to Rome on 06/07/2025") eq_refl)
      as (_ & _ & E).
    exact E.
Defined.

(** C10 as it is written fails for the text itself: the generic answer is
    the latest message of the member as it is, and a message can say
    anything. *)
Lemma no_messages_text_counterexample :
  answer_question_baseline (RT := cpython) "What did Bob say?" echo_of_fallback
  = Ok "I couldn't find any messages for Bob Stone."
  /\ no_messages_for "Bob Stone"
     = "I couldn't find any messages for Bob Stone.".
Proof. split; reflexivity. Defined.

Lemma resolved_member_has_messages_witness :
  filter_messages_for_member layla_and_bob "Bob Stone" <> [].
Proof.
  destruct (resolved_member_has_messages (RT := cpython) "Layla and Bob"
              layla_and_bob)
    as [H _].
  destruct (H "Bob Stone") as (_ & _ & F); [left; reflexivity | exact F].
Defined.

(** * The engine on a sample collection *)

Example answer_car_count_question :
  answer_question_baseline (RT := cpython) "How many cars does Layla have?"
    layla_and_bob
  = Ok "Layla Smith has 2 cars.".
Proof. reflexivity. Qed.

Example answer_generic_question :
  answer_question_baseline (RT := cpython) "What is new with Bob?"
    layla_and_bob
  = Ok "Back on Monday".
Proof. reflexivity. Qed.

Example answer_trip_question :
  answer_question_baseline (RT := cpython) "When is Amina's trip to Paris?"
    paris_then_rome
  = Ok "Paris will be lovely".
Proof. reflexivity. Qed.

(** A capture of blanks only strips to the empty text, which the trip
    extractor takes for no destination. *)
Example blank_destination :
  extract_destination_from_question "When is the trip to  ?" = Ok (Some "")
  /\ answer_trip_when "When is the trip to  ?" "Amina Van Den Berg"
       paris_then_rome
     = Ok "Amina Van Den Berg seems to be planning a trip around 06/07/2025.".
Proof. split; reflexivity. Qed.

(** A run of digits longer than the cap is no count. *)
Example digits_over_the_cap :
  py_int 4 "12345" = Raise ValueError /\ py_int 0 "12345" = Ok 12345%Z.
Proof. split; reflexivity. Qed.

(** * Further properties of the engine *)

(** ** The strict resolver *)

Section ResolverMore.

Context {RT : Runtime}.

Lemma set_iter_nil : set_iter [] = [].
Proof.
  destruct (set_iter []) as [|x l] eqn:E; [reflexivity|].
  assert (In x (set_iter [])) as I by (rewrite E; now left).
  apply (proj1 (set_iter_In _ _)) in I. destruct I.
Qed.

Lemma all_candidates_nil (names tokens : list string) :
  all_candidates names tokens = [] <->
  forall t, In t tokens -> length (sharing_first t names) <= 1.
Proof.
  unfold all_candidates. induction tokens as [|t tokens IH]; simpl.
  - split; [intros _ t []|reflexivity].
  - split.
    + intros H. apply app_eq_nil in H as [Ht H]. intros t' [<-|I].
      * unfold ambiguous_for in Ht.
        destruct (1 <? length (sharing_first t names)) eqn:L.
        -- rewrite Ht in L. discriminate.
        -- apply Nat.ltb_ge in L. exact L.
      * now apply IH.
    + intros H. rewrite (proj2 IH); [|intros t' I; apply H; now right].
      rewrite app_nil_r. unfold ambiguous_for.
      specialize (H t (or_introl eq_refl)).
      destruct (1 <? length (sharing_first t names)) eqn:L; [|reflexivity].
      apply Nat.ltb_lt in L. lia.
Qed.

(** When the strict resolver finds nobody. *)
Lemma find_member_fails_iff (question : string)
    (messages : list MemberMessage) :
  find_member_name_in_question question messages = Ok None <->
  (forall n, In n (unique_names messages) ->
     contains (lower n) (lower question) = false)
  /\ (forall t, In t (findall_alpha (lower question)) ->
        sharing_first t (unique_names messages) = []).
Proof.
  destruct messages as [|m0 ms] eqn:Em.
  { simpl. unfold unique_names. simpl. rewrite set_iter_nil.
    split; [|reflexivity]. intros _. split; [intros n []|reflexivity]. }
  rewrite <- Em. assert (messages <> []) as NE by (subst; discriminate).
  clear Em m0 ms.
  pose proof (find_member_cases question messages NE) as C. simpl in C.
  set (names := unique_names messages) in *.
  set (tokens := findall_alpha (lower question)) in *.
  destruct (List.find _ _) as [n|] eqn:F.
  - rewrite C. split; [discriminate|]. intros [H _]. exfalso.
    apply find_some in F as [I Hit].
    apply (proj1 (sorted_by_len_desc_In _ _)) in I.
    unfold full_name_hit in Hit. rewrite (H n I) in Hit.
    now rewrite andb_false_r in Hit.
  - assert (forall n, In n names ->
              contains (lower n) (lower question) = false) as NoFull.
    { intros n I. pose proof (proj1 (find_None_iff _ _) F n) as H.
      pose proof I as I'. apply unique_names_In in I' as [T _].
      unfold full_name_hit in H. rewrite T in H. apply H.
      now apply (proj2 (sorted_by_len_desc_In _ _)). }
    destruct C as (d & o & M & Eo & C).
    destruct (unique_first_loop_Ok names d tokens M) as (o' & Eo' & Hs & Hn).
    rewrite Eo in Eo'. injection Eo' as <-.
    destruct o as [x|].
    + rewrite C. split; [discriminate|]. intros [_ H]. exfalso.
      destruct (Hs x eq_refl) as (t & It & S). rewrite (H t It) in S.
      discriminate.
    + specialize (Hn eq_refl).
      destruct (candidates_loop_max (count_messages messages)
                  (all_candidates names tokens) None 0)
        as [[E H]|(l1 & c & l2 & Ec & E & Lc & _)]; rewrite E in C;
        simpl in C; rewrite C.
      * split; [|reflexivity]. intros _. split; [exact NoFull|].
        assert (all_candidates names tokens = []) as Nil.
        { destruct (all_candidates names tokens) as [|c l] eqn:Ec;
            [reflexivity|exfalso].
          assert (In c (all_candidates names tokens)) as I
            by (rewrite Ec; now left).
          specialize (H c (or_introl eq_refl)). simpl in H.
          apply all_candidates_In in I. pose proof I as I'.
          apply unique_names_In in I' as [T _].
          rewrite (count_messages_spec _ _ T) in H.
          assert (0 < message_count messages c).
          { apply message_count_pos. exact (proj1 (set_iter_In _ _) I). }
          lia. }
        intros t It. pose proof (proj1 (all_candidates_nil _ _) Nil t It) as L.
        specialize (Hn t It).
        destruct (sharing_first t names) as [|? [|? ?]]; simpl in *;
          [reflexivity|congruence|lia].
      * assert (In c names) as Ic.
        { apply (all_candidates_In names tokens). rewrite Ec.
          apply in_app_iff. right. now left. }
        apply unique_names_In in Ic as [T _]. rewrite T.
        split; [discriminate|]. intros [_ H]. exfalso.
        assert (all_candidates names tokens = []) as Nil.
        { apply all_candidates_nil. intros t It. rewrite (H t It). simpl. lia. }
        rewrite Nil in Ec. destruct l1; discriminate.
Qed.


(** X2.  The unique first-name rule: when no member name occurs in the
    question, the first token of the question that is the first name of
    exactly one member resolves to that member, whatever tokens shared
    by several members or by none come before it. *)
Theorem unique_first_name_rule (question : string)
    (messages : list MemberMessage) (before : list string) (t : string)
    (after : list string) (x : string) :
  (forall n, In n (unique_names messages) ->
     contains (lower n) (lower question) = false) ->
  findall_alpha (lower question) = before ++ t :: after ->
  (forall t', In t' before ->
     length (sharing_first t' (unique_names messages)) <> 1) ->
  sharing_first t (unique_names messages) = [x] ->
  find_member_name_in_question question messages = Ok (Some x).
Proof.
  intros NoFull Et Hb Hx.
  assert (messages <> []) as NE.
  { intros ->. unfold unique_names in Hx. simpl in Hx.
    rewrite set_iter_nil in Hx. discriminate. }
  pose proof (find_member_cases question messages NE) as C. simpl in C.
  rewrite (no_full_name_hit _ _ NoFull) in C.
  destruct C as (d & o & M & Eo & C).
  assert (unique_first_loop d (before ++ t :: after) = Ok (Some x)) as U.
  { clear Eo C Et. induction before as [|b before IH]; simpl.
    - unfold dict_contains, dict_getitem. rewrite (M t), Hx. reflexivity.
    - unfold dict_contains, dict_getitem. rewrite (M b).
      specialize (Hb b (or_introl eq_refl)) as Lb.
      destruct (sharing_first b (unique_names messages)) as [|y l] eqn:S.
      + apply IH. intros t' I. apply Hb. now right.
      + simpl. destruct l as [|z l]; [simpl in Lb; congruence|].
        simpl. apply IH. intros t' I. apply Hb. now right. }
  rewrite Et, U in Eo. injection Eo as <-. exact C.
Qed.

End ResolverMore.

(** ** Messages without a name *)

Lemma member_names_named (messages : list MemberMessage) :
  member_names (List.filter named messages) = member_names messages.
Proof.
  induction messages as [|m ms IH]; simpl; [reflexivity|].
  unfold named at 1. destruct (member_name m) as [n|] eqn:E; simpl.
  - destruct (truthy n) eqn:T; simpl; [|exact IH].
    rewrite E, T. now rewrite IH.
  - exact IH.
Qed.

Lemma count_fold_named (messages : list MemberMessage)
    (d : gmap string nat) :
  fold_left count_step (List.filter named messages) d
  = fold_left count_step messages d.
Proof.
  revert d. induction messages as [|m ms IH]; intros d; simpl; [reflexivity|].
  unfold named at 1, count_step at 3.
  destruct (member_name m) as [n|] eqn:E; simpl.
  - destruct (truthy n) eqn:T; simpl; [|apply IH].
    rewrite IH. unfold count_step at 2. now rewrite E, T.
  - apply IH.
Qed.

Lemma filter_messages_named (messages : list MemberMessage) (name : string) :
  truthy name = true ->
  filter_messages_for_member (List.filter named messages) name
  = filter_messages_for_member messages name.
Proof.
  intros T. unfold filter_messages_for_member.
  induction messages as [|m ms IH]; simpl; [reflexivity|].
  destruct (named m) eqn:N; simpl; [now rewrite IH|].
  rewrite IH. unfold named in N. unfold name_is.
  destruct (member_name m) as [n|]; [|reflexivity]. simpl in N.
  destruct (String.eqb_spec n name) as [->|_]; [congruence|reflexivity].
Qed.

Section Unnamed.

Context {RT : Runtime}.

Lemma unique_names_named (messages : list MemberMessage) :
  unique_names (List.filter named messages) = unique_names messages.
Proof. unfold unique_names. now rewrite member_names_named. Qed.

Lemma find_member_named (question : string) (messages : list MemberMessage) :
  find_member_name_in_question question (List.filter named messages)
  = find_member_name_in_question question messages.
Proof.
  destruct (List.filter named messages) as [|m' ms'] eqn:F.
  - symmetry. apply find_member_fails_iff.
    rewrite <- unique_names_named, F. unfold unique_names. simpl.
    rewrite set_iter_nil. split; [intros n []|reflexivity].
  - destruct messages as [|m ms]; [discriminate|]. rewrite <- F.
    unfold find_member_name_in_question at 2.
    rewrite <- unique_names_named.
    unfold count_messages. rewrite <- count_fold_named.
    rewrite F. reflexivity.
Qed.

Lemma suggest_named (requested : string) (messages : list MemberMessage)
    (min_similarity : Q) :
  suggest_similar_member_by_first_name requested
    (List.filter named messages) min_similarity
  = suggest_similar_member_by_first_name requested messages min_similarity.
Proof.
  unfold suggest_similar_member_by_first_name.
  now rewrite unique_names_named.
Qed.

(** X3.  Messages without a name (none, or the empty text) take no part:
    the strict resolver and the suggestion give the same result without
    them, and so does the main function as long as some message has a
    name. *)
Theorem unnamed_messages_take_no_part (question : string)
    (messages : list MemberMessage) :
  find_member_name_in_question question (List.filter named messages)
  = find_member_name_in_question question messages
  /\ (forall requested min_similarity,
        suggest_similar_member_by_first_name requested
          (List.filter named messages) min_similarity
        = suggest_similar_member_by_first_name requested messages
            min_similarity)
  /\ ((exists m, In m messages /\ named m = true) ->
      answer_question_baseline question (List.filter named messages)
      = answer_question_baseline question messages).
Proof.
  split; [apply find_member_named|]. split.
  { intros. apply suggest_named. }
  intros (m & Im & Nm).
  assert (In m (List.filter named messages)) as Im'
    by (apply filter_In; auto).
  assert (List.filter named messages <> []) as NE'
    by (intros E; rewrite E in Im'; destruct Im').
  assert (messages <> []) as NE by (intros E; rewrite E in Im; destruct Im).
  destruct (answer_cases question messages NE)
    as (strict & requested & suggested & Es & Er & Eg & C).
  destruct (answer_cases question _ NE')
    as (strict' & requested' & suggested' & Es' & Er' & Eg' & C').
  rewrite find_member_named, Es in Es'. injection Es' as <-.
  rewrite Er in Er'. injection Er' as <-.
  assert (suggested' = suggested) as ->.
  { destruct strict; [congruence|]. destruct requested; [|congruence].
    rewrite suggest_named, Eg in Eg'. congruence. }
  rewrite unique_names_named in C'.
  assert (Core : forall name, In name (unique_names messages) ->
            core_answer_for (detect_question_type question) question name
              (filter_messages_for_member (List.filter named messages) name)
            = core_answer_for (detect_question_type question) question name
                (filter_messages_for_member messages name)).
  { intros name I. apply unique_names_In in I as [T _].
    now rewrite filter_messages_named. }
  destruct suggested as [s|]; [|destruct strict as [s|]].
  - destruct C as (I & core & Ec & Ea).
    destruct C' as (_ & core' & Ec' & Ea').
    rewrite (Core s I), Ec in Ec'. injection Ec' as <-. congruence.
  - destruct C as (I & core & Ec & Ea).
    destruct C' as (_ & core' & Ec' & Ea').
    rewrite (Core s I), Ec in Ec'. injection Ec' as <-. congruence.
  - congruence.
Qed.

(** The answer for a member found by the strict resolver. *)
Lemma strict_answer (question : string)
    (messages : list MemberMessage) (name : string) :
  find_member_name_in_question question messages = Ok (Some name) ->
  answer_question_baseline question messages
  = core_answer_for (detect_question_type question) question name
      (filter_messages_for_member messages name).
Proof.
  intros E.
  assert (messages <> []) as NE by (intros ->; discriminate).
  destruct (answer_cases question messages NE)
    as (strict & requested & suggested & Es & _ & Eg & C).
  rewrite E in Es. injection Es as <-. subst suggested.
  destruct C as (_ & core & Ec & Ea). congruence.
Qed.

(** X4.  A member found by the strict resolver is answered for directly:
    the answer is the one of the extractor of the question's type on that
    member's messages, with no clarification, whatever first name the
    question seems to ask for. *)
Theorem strict_resolution_answers_directly (question : string)
    (messages : list MemberMessage) (name : string) :
  find_member_name_in_question question messages = Ok (Some name) ->
  answer_question_baseline question messages
  = core_answer_for (detect_question_type question) question name
      (filter_messages_for_member messages name).
Proof. apply strict_answer. Qed.

(** X5.  For a question of no special type and a member found by the
    strict resolver, the answer is the text of the last message of the
    collection that carries the member's name. *)
Theorem generic_answer_is_latest_message (question : string)
    (messages : list MemberMessage) (name : string) :
  detect_question_type question = generic ->
  find_member_name_in_question question messages = Ok (Some name) ->
  exists older latest newer,
    messages = older ++ latest :: newer
    /\ member_name latest = Some name
    /\ (forall m, In m newer -> member_name m <> Some name)
    /\ answer_question_baseline question messages = Ok (text latest).
Proof.
  intros D E. rewrite (strict_answer _ _ _ E), D.
  simpl.
  destruct (find_member_Ok question messages) as (o & Eo & Ho).
  rewrite E in Eo. injection Eo as <-.
  pose proof (unique_names_nonempty_filter _ _ (Ho name eq_refl)) as F.
  destruct (filter_messages_for_member messages name) as [|c cs] eqn:Ef;
    [congruence|].
  destruct (list_last_cons c cs) as (l' & latest & El & L).
  rewrite L. simpl. rewrite El in Ef. unfold filter_messages_for_member in Ef.
  apply filter_snoc_last in Ef as (older & newer & -> & Fy & N & _).
  exists older, latest, newer. split; [reflexivity|].
  split; [now apply name_is_true|]. split; [|reflexivity].
  intros m I Hm. apply name_is_true in Hm.
  assert (In m (List.filter (name_is name) newer)) as J
    by (apply filter_In; auto).
  rewrite N in J. destruct J.
Qed.

End Unnamed.

(** ** The counters and the first-name map *)

Lemma count_fold_lookup (messages : list MemberMessage)
    (d : gmap string nat) (n : string) :
  fold_left count_step messages d !! n
  = if truthy n && (0 <? length (List.filter (name_is n) messages))
    then Some (dict_get d n 0 + length (List.filter (name_is n) messages))
    else d !! n.
Proof.
  revert d. induction messages as [|m ms IH]; intros d; simpl.
  - now rewrite andb_false_r.
  - rewrite IH. unfold count_step, name_is.
    destruct (member_name m) as [name|]; [|reflexivity].
    destruct (truthy name) eqn:T.
    + rewrite dict_get_insert.
      destruct (String.eqb_spec name n) as [->|N]; simpl.
      * rewrite T. simpl. rewrite lookup_insert_eq.
        destruct (length _) as [|k]; simpl; f_equal; lia.
      * now rewrite lookup_insert_ne.
    + destruct (String.eqb_spec name n) as [->|N]; simpl; [|reflexivity].
      now rewrite T.
Qed.

(** X6.  The counters built by the resolver hold exactly the non-empty
    member names of the collection, each with the number of its messages,
    which is at least one. *)
Theorem msg_counts_are_message_counts (messages : list MemberMessage)
    (n : string) (k : nat) :
  count_messages messages !! n = Some k <->
  n <> "" /\ 0 < k /\ k = message_count messages n.
Proof.
  unfold count_messages, message_count, filter_messages_for_member.
  rewrite count_fold_lookup, lookup_empty. unfold dict_get.
  rewrite lookup_empty. simpl. rewrite <- truthy_iff.
  destruct (truthy n); simpl.
  - destruct (0 <? _) eqn:L.
    + apply Nat.ltb_lt in L. split.
      * intros [= <-]. auto.
      * intros (_ & _ & ->). reflexivity.
    + apply Nat.ltb_ge in L. split; [discriminate|]. intros (_ & P & E). lia.
  - split; [discriminate|]. intros (H & _). discriminate.
Qed.

Section FirstNameMap.

Context {RT : Runtime}.

(** X7.  The first-name map built by the resolver sends a lower-cased
    first name to the list, never empty, of the member names that begin
    with it, in the order the set of names is visited; a name is listed
    under its own first name only, and a name made of blanks nowhere. *)
Theorem by_first_is_the_first_name_map (messages : list MemberMessage) :
  exists by_first,
    by_first_loop ∅ (unique_names messages) = Ok by_first
    /\ (forall f l, by_first !! f = Some l <->
          l <> [] /\ l = sharing_first f (unique_names messages))
    /\ (forall f l n, by_first !! f = Some l ->
          (In n l <-> In n (unique_names messages)
                      /\ first_name n = Some f)).
Proof.
  destruct (by_first_loop_empty (unique_names messages)) as (d & E & M).
  exists d. split; [exact E|]. split.
  - intros f l. rewrite (M f). split.
    + intros H. destruct (sharing_first f _) as [|x l']; [discriminate|].
      injection H as <-. split; [discriminate|reflexivity].
    + intros [NE ->]. destruct (sharing_first f _); [congruence|reflexivity].
  - intros f l n H. apply (first_map_lookup _ _ _ _ M) in H as [-> _].
    unfold sharing_first. rewrite filter_In. unfold has_first.
    destruct (first_name n) as [g|].
    + rewrite String.eqb_eq. split; intros [I G]; split; congruence.
    + split; intros [I G]; discriminate.
Qed.

(** X8.  The suggestion, for any threshold: it never fails; a name it
    returns is the first, in the order the set of names is visited, of
    those of the highest ratio, and that ratio is positive and reaches the
    threshold; it returns none only when every ratio is at most 0 or below
    the threshold.  So a ratio of 0 is never adopted, even under a
    threshold of 0. *)
Theorem suggestion_for_any_threshold (requested : string)
    (messages : list MemberMessage) (min_similarity : Q) :
  let sim := similarity ratio (lower requested) in
  exists o,
    suggest_similar_member_by_first_name requested messages min_similarity
    = Ok o
    /\ match o with
       | Some n =>
           exists before after r,
             unique_names messages = before ++ n :: after
             /\ sim n = Some r /\ (0 < r)%Q /\ (min_similarity <= r)%Q
             /\ (forall c r', In c before -> sim c = Some r' -> (r' < r)%Q)
             /\ (forall c r', In c after -> sim c = Some r' -> (r' <= r)%Q)
       | None =>
           forall c r', In c (unique_names messages) -> sim c = Some r' ->
             (r' <= 0)%Q \/ (r' < min_similarity)%Q
       end.
Proof.
  intros sim. unfold suggest_similar_member_by_first_name.
  destruct (suggest_loop_max (lower requested) (unique_names messages)
              None 0%Q)
    as [[E H]|(l1 & c & l2 & r & En & Sc & E & Lc & H1 & H2)];
    rewrite E; simpl.
  - exists None. split; [reflexivity|]. intros c r' I Hs. left. eauto.
  - assert (In c (unique_names messages)) as Ic.
    { rewrite En. apply in_app_iff. right. now left. }
    assert (truthy c = true) as Tc by now apply unique_names_In in Ic.
    rewrite Tc. simpl. destruct (Qle_bool min_similarity r) eqn:Q.
    + apply Qle_bool_iff in Q. exists (Some c). split; [reflexivity|].
      exists l1, l2, r. repeat split; auto.
    + exists None. split; [reflexivity|]. intros c' r' I Hs. right.
      assert (r < min_similarity)%Q as Lr.
      { apply Qnot_le_lt. intros C. apply Qle_bool_iff in C. congruence. }
      rewrite En in I. apply in_app_iff in I as [I|[<-|I]].
      * eapply Qlt_trans; [|exact Lr]. eauto.
      * fold sim in Sc. rewrite Sc in Hs. injection Hs as <-. exact Lr.
      * eapply Qle_lt_trans; [|exact Lr]. eauto.
Qed.

End FirstNameMap.

(** ** The favorite-restaurant and trip extractors *)

Lemma filter_filter_same {A} (f : A -> bool) (l : list A) :
  List.filter f (List.filter f l) = List.filter f l.
Proof.
  induction l as [|a l IH]; simpl; [reflexivity|].
  destruct (f a) eqn:F; simpl; [|exact IH]. now rewrite F, IH.
Qed.


(** X10.  Without a destination (the question has no "trip to" followed by
    a word, or only blanks after it), the trip extractor looks at the
    messages whose lower-cased text contains "trip": with none it answers
    that no trip details were found; otherwise it answers from the last of
    them, with the date phrase found in it or else with its text as it
    is.  The other messages have no part in the answer. *)
Theorem trip_without_destination (question name : string)
    (messages : list MemberMessage) :
  extract_destination_from_question question = Ok None
  \/ extract_destination_from_question question = Ok (Some "") ->
  let about := List.filter (mentions "trip") messages in
  (about = [] ->
   answer_trip_when question name messages
   = Ok ("I couldn't find any trip details for " +:+ name +:+ "."))
  /\ (forall earlier latest,
        about = earlier ++ [latest] ->
        answer_trip_when question name messages
        = Ok (match extract_date_phrase (text latest) with
              | Some date =>
                  name +:+ " seems to be planning a trip around " +:+ date
                    +:+ "."
              | None => text latest
              end))
  /\ answer_trip_when question name messages
     = answer_trip_when question name about.
Proof.
  intros E about.
  assert (Any : forall l, answer_trip_when question name l
                          = answer_trip_any name l).
  { intros l. unfold answer_trip_when. destruct E as [-> | ->]; reflexivity. }
  split; [|split].
  - intros H. rewrite Any.
    pose proof (answer_trip_any_cases name messages) as C.
    fold about in C. now rewrite H in C.
  - intros earlier latest H. rewrite Any.
    pose proof (answer_trip_any_cases name messages) as C.
    fold about in C. rewrite H in C.
    destruct (earlier ++ [latest]) as [|c cs] eqn:El.
    { destruct earlier; discriminate. }
    destruct C as (older & latest' & E' & C).
    rewrite <- El in E'. apply app_inj_tail in E' as [_ <-]. exact C.
  - rewrite !Any. unfold answer_trip_any, about.
    now rewrite filter_filter_same.
Qed.

(** ** The date phrase *)

Lemma rmatch_alt_In (r : regex) (rs : list regex) prev s
    (x : position * list string) :
  In x (rmatch (alt r rs) prev s) <->
  exists r', In r' (r :: rs) /\ In x (rmatch r' prev s).
Proof.
  revert r. induction rs as [|r1 rs IH]; intros r.
  - simpl alt. split.
    + intros H. exists r. split; [now left|exact H].
    + intros (r' & [<-|[]] & H). exact H.
  - change (alt r (r1 :: rs)) with (Alt r (alt r1 rs)).
    change (rmatch (Alt r (alt r1 rs)) prev s)
      with (rmatch r prev s ++ rmatch (alt r1 rs) prev s).
    rewrite in_app_iff, IH. split.
    + intros [H|(r' & I & H)].
      * exists r. split; [now left|exact H].
      * exists r'. split; [now right|exact H].
    + intros (r' & [<-|I] & H); [now left|]. right. eauto.
Qed.

(** What a literal followed by a pattern reads begins with the literal. *)
Lemma lit_then_reads (a : string) (r : regex) prev s (e : position)
    (g : list string) :
  In (e, g) (rmatch (Seq (lit a) r) prev s) ->
  exists x, s = (a +:+ x) +:+ snd e.
Proof.
  intros H. apply rmatch_Seq_In in H as (p1 & s1 & g1 & g2 & H1 & H2 & _).
  apply rmatch_lit_In in H1 as (-> & _ & _). cbn [snd] in *.
  apply rmatch_reads in H2 as (x & -> & _). exists x.
  now rewrite sapp_assoc.
Qed.

Lemma month_reads prev s (e : position) (g : list string) :
  In (e, g)
     (rmatch
        (alt (Seq (lit "Jan") (Opt (lit "uary")))
           [Seq (lit "Feb") (Opt (lit "ruary"));
            Seq (lit "Mar") (Opt (lit "ch"));
            Seq (lit "Apr") (Opt (lit "il"));
            lit "May";
            Seq (lit "Jun") (Opt (lit "e"));
            Seq (lit "Jul") (Opt (lit "y"));
            Seq (lit "Aug") (Opt (lit "ust"));
            Seq (lit "Sep") (Opt (Seq (lit "t") (Opt (lit "ember"))));
            Seq (lit "Oct") (Opt (lit "ober"));
            Seq (lit "Nov") (Opt (lit "ember"));
            Seq (lit "Dec") (Opt (lit "ember"))]) prev s) ->
  exists month x, In month MONTHS /\ s = (month +:+ x) +:+ snd e.
Proof.
  intros H. apply rmatch_alt_In in H as (r' & I & H).
  unfold MONTHS.
  repeat (destruct I as [<-|I];
          [first [ apply lit_then_reads in H as (x & E);
                   eexists _, x; split; [|exact E]; simpl; tauto
                 | apply rmatch_lit_In in H as (E & _ & _);
                   exists "May", ""; split; [simpl; tauto|exact E] ]|]).
  destruct I.
Qed.

Lemma first_is_word_after (u rest : string) (p : ascii -> bool) :
  (forall c, p c = true -> is_word c = true) ->
  truthy u = true -> all_chars p u = true ->
  word_after (u +:+ rest) = true.
Proof.
  intros W T A. destruct u as [|c u]; [discriminate|]. simpl in *.
  apply andb_true_iff in A as [Pc _]. now apply W.
Qed.

Lemma wordb_before (prev : option ascii) (s : string) :
  xorb (word_before prev) (word_after s) = true -> word_after s = true ->
  word_before prev = false.
Proof. intros X W. rewrite W in X. now destruct (word_before prev). Qed.

Lemma months_are_words (month x rest : string) :
  In month MONTHS -> word_after ((month +:+ x) +:+ rest) = true.
Proof.
  unfold MONTHS. intros I.
  repeat (destruct I as [<-|I]; [reflexivity|]). destruct I.
Qed.

(** The matches of the month pattern. *)
Lemma month_match_reads prev s (e : position) (g : list string) :
  In (e, g) (rmatch MONTH_PATTERN prev s) ->
  exists u, s = u +:+ snd e /\ month_phrase u
            /\ word_before prev = false.
Proof.
  unfold MONTH_PATTERN, seq. cbn [fold_right]. intros H.
  apply rmatch_Seq_In in H as (p1 & s1 & g1 & g2 & H1 & H2 & _).
  apply rmatch_WordB_In in H1 as (E & _ & X). injection E as -> ->.
  apply rmatch_Seq_In in H2 as (p2 & s2 & g3 & g4 & H2 & H3 & _).
  apply month_reads in H2 as (month & x & I & ->). cbn [snd] in *.
  apply rmatch_reads in H3 as (u2 & -> & _).
  exists ((month +:+ x) +:+ u2). split; [now rewrite !sapp_assoc|].
  split.
  - exists month, (x +:+ u2). split; [exact I|]. now rewrite sapp_assoc.
  - apply (wordb_before _ _ X). now apply months_are_words.
Qed.

(** The matches of the slash pattern. *)
Lemma slash_match_reads prev s (e : position) (g : list string) :
  In (e, g) (rmatch DATE_SLASH_PATTERN prev s) ->
  exists u, s = u +:+ snd e /\ slash_date u /\ word_before prev = false.
Proof.
  unfold DATE_SLASH_PATTERN, seq. cbn [fold_right]. intros H.
  apply rmatch_Seq_In in H as (p1 & s1 & g1 & g2 & H1 & H & _).
  apply rmatch_WordB_In in H1 as (E & _ & X). injection E as -> ->.
  apply rmatch_Seq_In in H as (p2 & s2 & ? & ? & Ha & H & _).
  apply rmatch_Rep_In in Ha as [_ Ha].
  apply rep_In in Ha as (a & -> & _ & Aa & La & Ua). cbn [snd] in *.
  apply rmatch_Seq_In in H as (p3 & s3 & ? & ? & H1 & H & _).
  apply rmatch_lit_In in H1 as (-> & _ & _). cbn [snd] in *.
  apply rmatch_Seq_In in H as (p4 & s4 & ? & ? & Hb & H & _).
  apply rmatch_Rep_In in Hb as [_ Hb].
  apply rep_In in Hb as (b & -> & _ & Ab & Lb & Ub). cbn [snd] in *.
  apply rmatch_Seq_In in H as (p5 & s5 & ? & ? & H1 & H & _).
  apply rmatch_lit_In in H1 as (-> & _ & _). cbn [snd] in *.
  apply rmatch_Seq_In in H as (p6 & s6 & ? & ? & Hc & H & _).
  apply rmatch_Rep_In in Hc as [_ Hc].
  apply rep_In in Hc as (c & -> & _ & Ac & Lc & Uc). cbn [snd] in *.
  apply rmatch_Seq_In in H as (p7 & s7 & ? & ? & H1 & H & _).
  apply rmatch_WordB_In in H1 as (E & _ & _). injection E as -> ->.
  apply rmatch_Eps_In in H as [-> _]. cbn [snd] in *.
  exists (a +:+ "/" +:+ b +:+ "/" +:+ c). split; [|split].
  - now rewrite !sapp_assoc.
  - exists a, b, c. simpl in Ua, Ub, Uc. repeat split; auto.
  - apply (wordb_before _ _ X).
    apply (first_is_word_after a _ is_digit digit_is_word); [|exact Aa].
    destruct a; [simpl in La; lia|reflexivity].
Qed.

Lemma search_found_at (r : regex) (s : string) (m : Match) :
  re_search r s = Some m ->
  exists pre s1 e g,
    s = pre +:+ s1 /\ In (e, g) (rmatch r (last_char None pre) s1)
    /\ group0 m = consumed s1 (snd e).
Proof.
  intros H. apply search_from_Some in H.
  destruct H as (pre & s1 & e & g & tl & E & R & -> & _).
  exists pre, s1, e, g. split; [exact E|]. split; [|reflexivity].
  rewrite R. now left.
Qed.

(** X11.  A date phrase found in a text is a piece of that text that
    begins at a word boundary; it begins with a month ("Jan", "Feb", ...)
    or, only when the text has no month phrase at all, it is a date with
    slashes of one or two, one or two and two to four digits. *)
Theorem date_phrase_shape (t d : string) :
  extract_date_phrase t = Some d ->
  (exists pre post,
     t = pre +:+ d +:+ post /\ word_before (last_char None pre) = false)
  /\ d <> ""
  /\ (month_phrase d
      \/ (slash_date d /\ re_search MONTH_PATTERN t = None)).
Proof.
  intros H. split; [|split].
  - unfold extract_date_phrase in H.
    destruct (re_search MONTH_PATTERN t) as [m|] eqn:M.
    + injection H as <-.
      apply search_found_at in M as (pre & s1 & e & g & -> & I & ->).
      apply month_match_reads in I as (u & -> & _ & W).
      rewrite consumed_app. eauto.
    + destruct (re_search DATE_SLASH_PATTERN t) as [m|] eqn:D;
        [|discriminate].
      injection H as <-.
      apply search_found_at in D as (pre & s1 & e & g & -> & I & ->).
      apply slash_match_reads in I as (u & -> & _ & W).
      rewrite consumed_app. eauto.
  - apply truthy_iff. exact (extract_date_phrase_truthy _ _ H).
  - unfold extract_date_phrase in H.
    destruct (re_search MONTH_PATTERN t) as [m|] eqn:M.
    + injection H as <-. left.
      apply search_found_at in M as (pre & s1 & e & g & -> & I & ->).
      apply month_match_reads in I as (u & -> & P & _).
      now rewrite consumed_app.
    + destruct (re_search DATE_SLASH_PATTERN t) as [m|] eqn:D;
        [|discriminate].
      injection H as <-. right. split; [|reflexivity].
      apply search_found_at in D as (pre & s1 & e & g & -> & I & ->).
      apply slash_match_reads in I as (u & -> & P & _).
      now rewrite consumed_app.
Qed.

(** ** The destination *)



















(** ** The first name a question asks about *)






(** ** The debug endpoint *)

Lemma api_fold_lookup (messages : list MemberMessage)
    (d : gmap string nat) (k : string) :
  fold_left Api.count_step messages d !! k
  = if 0 <? length (List.filter (shown_as k) messages)
    then Some (dict_get d k 0 + length (List.filter (shown_as k) messages))
    else d !! k.
Proof.
  revert d. induction messages as [|m ms IH]; intros d; simpl; [reflexivity|].
  rewrite IH. unfold Api.count_step, shown_as.
  rewrite dict_get_insert.
  destruct (String.eqb_spec (Api.display_name m) k) as [->|N]; simpl.
  - rewrite lookup_insert_eq.
    destruct (length _) as [|j]; simpl; f_equal; lia.
  - now rewrite lookup_insert_ne.
Qed.

Lemma total_insert (d : gmap string nat) (k : string) (v : nat) :
  total (<[k := v]> d) + dict_get d k 0 = total d + v.
Proof.
  assert (C : forall (m : gmap string nat) (j1 j2 : string) (z1 z2 y : nat),
    j1 <> j2 -> m !! j1 = Some z1 -> m !! j2 = Some z2 ->
    z1 + (z2 + y) = z2 + (z1 + y)) by (intros; lia).
  unfold total, dict_get. destruct (d !! k) as [x|] eqn:E; simpl.
  - rewrite <- (insert_delete_eq d).
    rewrite map_fold_insert_L; [|apply C|apply lookup_delete_eq].
    rewrite (map_fold_delete_L _ _ k x d); [lia|apply C|exact E].
  - rewrite map_fold_insert_L; [lia|apply C|exact E].
Qed.

Lemma api_fold_total (messages : list MemberMessage) (d : gmap string nat) :
  total (fold_left Api.count_step messages d) = total d + length messages.
Proof.
  revert d. induction messages as [|m ms IH]; intros d; simpl; [lia|].
  rewrite IH. unfold Api.count_step.
  pose proof (total_insert d (Api.display_name m)
                (dict_get d (Api.display_name m) 0 + 1)). lia.
Qed.

(** X14.  The debug endpoint lists a name exactly when some message is
    shown under it, with the number of those messages; a message without
    a name is shown under the empty name, and a name is shown without the
    blanks around it. *)
Theorem api_member_names_counts (messages : list MemberMessage)
    (k : string) (n : nat) :
  Api.member_names messages !! k = Some n <->
  0 < n /\ n = length (List.filter (shown_as k) messages).
Proof.
  unfold Api.member_names. rewrite api_fold_lookup, lookup_empty.
  unfold dict_get. rewrite lookup_empty. simpl.
  destruct (0 <? _) eqn:L.
  - apply Nat.ltb_lt in L. split.
    + intros [= <-]. auto.
    + intros (_ & ->). reflexivity.
  - apply Nat.ltb_ge in L. split; [discriminate|]. intros (P & E). lia.
Qed.

(** X15.  The counters of the debug endpoint add up to the number of
    messages: every message is counted once, named or not. *)
Theorem api_member_names_total (messages : list MemberMessage) :
  total (Api.member_names messages) = length messages.
Proof.
  unfold Api.member_names. rewrite api_fold_total.
  unfold total. now rewrite map_fold_empty.
Qed.

(** ** The car count, again *)

Lemma int_loop_nonneg (s : string) (acc : Z) :
  (0 <= acc -> 0 <= int_loop acc s)%Z.
Proof.
  revert acc. induction s as [|c s IH]; intros acc H; simpl; [exact H|].
  apply IH. unfold digit_value. lia.
Qed.

Section CarCountSign.

Context {RT : Runtime}.

(** X16.  A car count read from a text is never negative: a sign before
    the digits is not part of the number. *)
Theorem car_count_never_negative (t : string) (n : Z) :
  extract_car_count_from_text t = Ok (Some n) -> (0 <= n)%Z.
Proof.
  unfold extract_car_count_from_text.
  destruct (re_search CAR_COUNT_PATTERN (lower t)) as [m|]; [|discriminate].
  destruct (group m 1) as [g|e]; simpl.
  - unfold py_int. destruct (truthy g && all_chars is_digit g);
      [|discriminate].
    destruct ((int_max_str_digits =? 0)
              || (String.length g <=? int_max_str_digits));
      [|discriminate].
    intros [= <-]. now apply int_loop_nonneg.
  - destruct e; discriminate.
Qed.

End CarCountSign.

(** * Instances of the further properties on sample data *)

Lemma unique_first_name_rule_witness :
  find_member_name_in_question (RT := cpython)
    "Is Layla or Bob around?" layla_and_bob
  = Ok (Some "Bob Stone").
Proof.
  apply (unique_first_name_rule (RT := cpython)
           "Is Layla or Bob around?" layla_and_bob
           ["is"; "layla"; "or"] "bob" ["around"] "Bob Stone").
  - intros n I. vm_compute in I.
    destruct I as [<-|[<-|[<-|[]]]]; reflexivity.
  - reflexivity.
  - intros t' [<-|[<-|[<-|[]]]]; vm_compute; lia.
  - reflexivity.
Defined.

Lemma strict_resolution_answers_directly_witness :
  answer_question_baseline (RT := cpython)
    "How many cars does Layla Smith have?" layla_and_bob
  = core_answer_for (RT := cpython) car_count
      "How many cars does Layla Smith have?" "Layla Smith"
      [message "Layla Smith" "I have 1 car";
       message "Layla Smith" "Actually now I have 2 cars"].
Proof.
  apply (strict_resolution_answers_directly (RT := cpython)
           "How many cars does Layla Smith have?" layla_and_bob
           "Layla Smith").
  reflexivity.
Defined.

Lemma generic_answer_is_latest_message_witness :
  exists older latest newer,
    layla_and_bob = older ++ latest :: newer
    /\ member_name latest = Some "Layla Smith"
    /\ (forall m, In m newer -> member_name m <> Some "Layla Smith")
    /\ answer_question_baseline (RT := cpython)
         "What is Layla Smith up to?" layla_and_bob
       = Ok (text latest).
Proof.
  apply (generic_answer_is_latest_message (RT := cpython)
           "What is Layla Smith up to?" layla_and_bob "Layla Smith");
    reflexivity.
Defined.

Lemma trip_without_destination_witness :
  answer_trip_when "When is the trip?" "Bob Stone" bob_and_his_trip
  = Ok "Bob Stone seems to be planning a trip around March 3rd."
  /\ answer_trip_when "When is the trip?" "Bob Stone" bob_and_his_trip
     = answer_trip_when "When is the trip?" "Bob Stone"
         [message "Bob Stone" "My trip starts on March 3rd"].
Proof.
  destruct (trip_without_destination "When is the trip?" "Bob Stone"
              bob_and_his_trip (or_introl eq_refl)) as (_ & Last & Same).
  split.
  - exact (Last [] (message "Bob Stone" "My trip starts on March 3rd")
             eq_refl).
  - exact Same.
Defined.

Lemma date_phrase_shape_witness :
  (exists pre post,
      "Then a trip to Rome on 06/07/2025" = pre +:+ "06/07/2025" +:+ post
      /\ word_before (last_char None pre) = false)
  /\ "06/07/2025" <> ""
  /\ (month_phrase "06/07/2025"
      \/ (slash_date "06/07/2025"
          /\ re_search MONTH_PATTERN "Then a trip to Rome on 06/07/2025"
             = None)).
Proof.
  apply (date_phrase_shape "Then a trip to Rome on 06/07/2025" "06/07/2025").
  reflexivity.
Defined.


Lemma car_count_never_negative_witness :
  extract_car_count_from_text (RT := cpython) "I sold -3 cars" = Ok (Some 3%Z)
  /\ (0 <= 3)%Z.
Proof.
  split; [reflexivity|].
  apply (car_count_never_negative (RT := cpython) "I sold -3 cars" 3).
  reflexivity.
Defined.
